(** * The undo/redo command history of [src/behavioral/command.ts]

    A shallow embedding of the command-pattern example: the receiver
    [TextEditor], the concrete command [TypeCommand], the invoker
    [CommandManager] and the client script, followed by the properties of
    the history engine that the specification states about them.

    JavaScript features that matter for the properties are kept:
    - methods mutate objects, so every method is a state transformer;
    - a method may throw, and a throw keeps the mutations made before it;
    - [console.log] appends to an output that is part of the state;
    - [Array.prototype.splice] and [String.prototype.slice] take relative
      (possibly negative, possibly too large) positions;
    - reading an array out of range yields [undefined], and calling a
      method on [undefined] throws a [TypeError].

    The capacity bound and the history errors of the specification are not
    in the source; module [Bounded] models them from the specification,
    over the source's commands, record and cursor. *)

From Stdlib Require Import String Ascii ZArith List Bool Lia.
Import ListNotations.
Local Open Scope Z_scope.

(** ** Strings and arrays *)

(** A JavaScript string is a sequence of code units; [length], [+] and
    [slice] work unit by unit, and nothing in the program looks inside a
    unit. *)
Definition jsstring : Type := list ascii.

(** A string literal of the source. *)
Definition lit (s : string) : jsstring := list_ascii_of_string s.

(** The position that [slice] and [splice] compute from a relative
    argument [k] on a sequence of [len] elements: a negative [k] counts
    from the end, and the result is clamped to [0 .. len]. *)
Definition relative_index (len : nat) (k : Z) : nat :=
  if k <? 0 then Z.to_nat (Z.max (Z.of_nat len + k) 0)
  else Z.to_nat (Z.min k (Z.of_nat len)).

(** [s.slice(start, end)]. *)
Definition slice {A : Type} (s : list A) (start stop : Z) : list A :=
  let from := relative_index (length s) start in
  let upto := relative_index (length s) stop in
  firstn (upto - from) (skipn from s).

(** [a.splice(start)] with a single argument removes every element from
    the relative position [start] to the end; the pair is (what stays in
    the array, what the call returns). *)
Definition splice {A : Type} (a : list A) (start : Z) : list A * list A :=
  let from := relative_index (length a) start in
  (firstn from a, skipn from a).

(** [a[i]]: [undefined] (here [None]) outside [0 .. length-1]. *)
Definition element_at {A : Type} (a : list A) (i : Z) : option A :=
  if i <? 0 then None else nth_error a (Z.to_nat i).

(** ** Computations that mutate a state and may throw *)

(** What a [throw] carries: the engine's own [TypeError], or any value a
    command implementation decides to throw. *)
Inductive exn : Type :=
| TypeError
| Thrown (v : jsstring).

Inductive completion (A : Type) : Type :=
| Normal (a : A)
| Abrupt (e : exn).
Arguments Normal {A} a.
Arguments Abrupt {A} e.

(** A method body over a mutable state [S]: it always hands back the state,
    because a JavaScript throw does not undo earlier assignments. *)
Definition js (S A : Type) : Type := S -> completion A * S.

Definition ret {S A : Type} (a : A) : js S A := fun s => (Normal a, s).

Definition throw {S A : Type} (e : exn) : js S A := fun s => (Abrupt e, s).

Definition bind {S A B : Type} (c : js S A) (k : A -> js S B) : js S B :=
  fun s =>
    match c s with
    | (Normal a, s') => k a s'
    | (Abrupt e, s') => (Abrupt e, s')
    end.

Definition gets {S A : Type} (f : S -> A) : js S A := fun s => (Normal (f s), s).

Definition modify {S : Type} (f : S -> S) : js S unit := fun s => (Normal tt, f s).

Declare Scope js_scope.
Delimit Scope js_scope with js.
Notation "x <- c1 ;; c2" := (bind c1 (fun x => c2))
  (at level 61, c1 at next level, right associativity) : js_scope.
Notation "c1 ;; c2" := (bind c1 (fun _ => c2))
  (at level 61, right associativity) : js_scope.
Local Open Scope js_scope.

(** [for (let i = 0; i < n; i++) { body }] where [body] does not touch
    [i] and [n] is not reassigned. *)
Fixpoint for_loop {S : Type} (n : nat) (body : js S unit) : js S unit :=
  match n with
  | O => ret tt
  | Datatypes.S k => body ;; for_loop k body
  end.

Definition is_normal {A : Type} (r : completion A) : bool :=
  match r with Normal _ => true | Abrupt _ => false end.

(** ** The world commands act on *)

(** The objects a command can reach (its target, of type [T]) and the
    console. *)
Record World (T : Type) : Type := mkWorld {
  target : T;
  console : list jsstring
}.
Arguments mkWorld {T} _ _.
Arguments target {T} _.
Arguments console {T} _.

(** [console.log(msg)]. *)
Definition console_log {T : Type} (msg : jsstring) : js (World T) unit :=
  modify (fun w => mkWorld (target w) (console w ++ [msg])).

(** ** Receiver: [class TextEditor] *)

(** Object identity: a [TextEditor] is used through a reference, and
    several commands may hold the same one. *)
Definition ref : Type := nat.

Module TextEditor.

Record t : Type := mk { text : jsstring }.

(** [private text: string = '']. *)
Definition new : t := mk [].

(** The editors that exist, by reference. *)
Definition Heap : Type := ref -> t.

Definition store (h : Heap) (r : ref) (e : t) : Heap :=
  fun r' => if Nat.eqb r' r then e else h r'.

Definition read_text (this : ref) : js (World Heap) jsstring :=
  gets (fun w => text (target w this)).

Definition write_text (this : ref) (v : jsstring) : js (World Heap) unit :=
  modify (fun w => mkWorld (store (target w) this (mk v)) (console w)).

(** [type(text) { this.text += text; console.log(`Current Text: ${this.text}`); }] *)
Definition type (this : ref) (text : jsstring) : js (World Heap) unit :=
  old <- read_text this ;;
  write_text this (old ++ text) ;;
  cur <- read_text this ;;
  console_log (lit "Current Text: " ++ cur).

(** [delete() { this.text = this.text.slice(0, -1);
               console.log(`Current Text after delete: ${this.text}`); }] *)
Definition delete (this : ref) : js (World Heap) unit :=
  old <- read_text this ;;
  write_text this (slice old 0 (-1)) ;;
  cur <- read_text this ;;
  console_log (lit "Current Text after delete: " ++ cur).

(** [getText() { return this.text; }] *)
Definition getText (this : ref) : js (World Heap) jsstring :=
  read_text this.

End TextEditor.

(** ** [interface Command] *)

Module Command.

(** An object with the two methods of the interface; each is a closure over
    the object's own fields and acts on the world. A command does not call
    back into the manager that runs it (none in the source does), so the
    manager object is not part of what a command can change. *)
Record t (T : Type) : Type := mk {
  execute : js (World T) unit;
  undo : js (World T) unit
}.
Arguments mk {T} _ _.
Arguments execute {T} _.
Arguments undo {T} _.

End Command.

(** ** Concrete command: [class TypeCommand implements Command] *)

Module TypeCommand.

Record t : Type := mk {
  editor : ref;
  text : jsstring
}.

(** [execute() { this.editor.type(this.text); }] *)
Definition execute (this : t) : js (World TextEditor.Heap) unit :=
  TextEditor.type (editor this) (text this).

(** [undo() { for (let i = 0; i < this.text.length; i++) this.editor.delete(); }] *)
Definition undo (this : t) : js (World TextEditor.Heap) unit :=
  for_loop (length (text this)) (TextEditor.delete (editor this)).

(** The object seen through the interface. *)
Definition as_Command (this : t) : Command.t TextEditor.Heap :=
  Command.mk (execute this) (undo this).

End TypeCommand.

(** ** Invoker: [class CommandManager] *)

Module CommandManager.

(** [index] is a JavaScript number that only ever holds an integer: it
    starts at [-1] and changes by [++] and [--], which are exact on the
    integers an array length can reach. *)
Record t (T : Type) : Type := mk {
  commands : list (Command.t T);
  index : Z
}.
Arguments mk {T} _ _.
Arguments commands {T} _.
Arguments index {T} _.

(** [private commands: Command[] = []; private index: number = -1;] *)
Definition new {T : Type} : t T := mk [] (-1).

(** The state a method of the manager runs in: the manager object itself
    and the world its commands act on. *)
Record Sys (T : Type) : Type := mkSys {
  this : t T;
  env : World T
}.
Arguments mkSys {T} _ _.
Arguments this {T} _.
Arguments env {T} _.

(** Running a computation on the world from inside a method. *)
Definition in_world {T A : Type} (c : js (World T) A) : js (Sys T) A :=
  fun s => let (r, w) := c (env s) in (r, mkSys (this s) w).

Definition get_commands {T : Type} : js (Sys T) (list (Command.t T)) :=
  gets (fun s => commands (this s)).

Definition set_commands {T : Type} (cs : list (Command.t T)) : js (Sys T) unit :=
  modify (fun s => mkSys (mk cs (index (this s))) (env s)).

Definition get_index {T : Type} : js (Sys T) Z :=
  gets (fun s => index (this s)).

Definition set_index {T : Type} (i : Z) : js (Sys T) unit :=
  modify (fun s => mkSys (mk (commands (this s)) i) (env s)).

(** [command.m()] on the result of an array read: a [TypeError] when the
    read gave [undefined]. *)
Definition invoke {T : Type} (m : Command.t T -> js (World T) unit)
  (command : option (Command.t T)) : js (Sys T) unit :=
  match command with
  | Some c => in_world (m c)
  | None => throw TypeError
  end.

(** The test of [undo]: [this.index >= 0]. *)
Definition canUndo {T : Type} (m : t T) : bool := 0 <=? index m.

(** The test of [redo]: [this.index + 1 < this.commands.length]. *)
Definition canRedo {T : Type} (m : t T) : bool :=
  index m + 1 <? Z.of_nat (length (commands m)).

(** [executeCommand(command) {
       command.execute();
       this.commands.splice(this.index + 1);
       this.commands.push(command);
       this.index++; }] *)
Definition executeCommand {T : Type} (command : Command.t T) : js (Sys T) unit :=
  in_world (Command.execute command) ;;
  i <- get_index ;;
  cs <- get_commands ;;
  set_commands (fst (splice cs (i + 1))) ;;
  cs <- get_commands ;;
  set_commands (cs ++ [command]) ;;
  i <- get_index ;;
  set_index (i + 1).

(** [undo() {
       if (this.index >= 0) {
         const command = this.commands[this.index];
         command.undo();
         this.index--;
       } else { console.log("No command to undo."); } }] *)
Definition undo {T : Type} : js (Sys T) unit :=
  m <- gets this ;;
  if canUndo m then
    i <- get_index ;;
    cs <- get_commands ;;
    invoke Command.undo (element_at cs i) ;;
    i <- get_index ;;
    set_index (i - 1)
  else
    in_world (console_log (lit "No command to undo.")).

(** [redo() {
       if (this.index + 1 < this.commands.length) {
         this.index++;
         const command = this.commands[this.index];
         command.execute();
       } else { console.log("No command to redo."); } }] *)
Definition redo {T : Type} : js (Sys T) unit :=
  m <- gets this ;;
  if canRedo m then
    i <- get_index ;;
    set_index (i + 1) ;;
    i <- get_index ;;
    cs <- get_commands ;;
    invoke Command.execute (element_at cs i)
  else
    in_world (console_log (lit "No command to redo.")).

End CommandManager.

(** ** Callers of the manager *)

(** One call of a public method of the manager. *)
Inductive call (T : Type) : Type :=
| CallExecute (command : Command.t T)
| CallUndo
| CallRedo.
Arguments CallExecute {T} command.
Arguments CallUndo {T}.
Arguments CallRedo {T}.

Definition perform {T : Type} (k : call T) : js (CommandManager.Sys T) unit :=
  match k with
  | CallExecute command => CommandManager.executeCommand command
  | CallUndo => CommandManager.undo
  | CallRedo => CommandManager.redo
  end.

(** A caller that makes the calls one after the other and goes on after a
    throw (it catches it): only the state is carried from call to call. *)
Fixpoint run {T : Type} (ks : list (call T)) (s : CommandManager.Sys T)
  : CommandManager.Sys T :=
  match ks with
  | [] => s
  | k :: rest => run rest (snd (perform k s))
  end.

(** Every call of [ks], made from [s] on, returns without a throw. *)
Fixpoint all_normal {T : Type} (ks : list (call T)) (s : CommandManager.Sys T)
  : bool :=
  match ks with
  | [] => true
  | k :: rest =>
      is_normal (fst (perform k s)) && all_normal rest (snd (perform k s))
  end.

(** [new CommandManager()] next to a world [w]. *)
Definition fresh {T : Type} (w : World T) : CommandManager.Sys T :=
  CommandManager.mkSys CommandManager.new w.

(** The states a caller can bring a manager to. *)
Definition reachable {T : Type} (s : CommandManager.Sys T) : Prop :=
  exists (ks : list (call T)) (w : World T), s = run ks (fresh w).

(** The cursor points at an entry of the record, or just before the first. *)
Definition index_in_range {T : Type} (m : CommandManager.t T) : Prop :=
  -1 <= CommandManager.index m
  <= Z.of_nat (length (CommandManager.commands m)) - 1.

(** The world after [console.log(msg)]. *)
Definition logged {T : Type} (msg : jsstring) (w : World T) : World T :=
  mkWorld (target w) (console w ++ [msg]).

(** The text of editor [r] in a state of the system. *)
Definition text_of (r : ref) (s : CommandManager.Sys TextEditor.Heap) : jsstring :=
  TextEditor.text (target (CommandManager.env s) r).

(** What the commands [cs], executed in order, type into editor [r]. *)
Definition typed_on (r : ref) (cs : list TypeCommand.t) : jsstring :=
  flat_map
    (fun c => if Nat.eqb r (TypeCommand.editor c) then TypeCommand.text c else [])
    cs.

(** The applied part of a record: the entries up to the cursor. *)
Definition applied {A : Type} (i : Z) (cs : list A) : list A :=
  firstn (Z.to_nat (i + 1)) cs.

(** Executing a [TypeCommand] through the manager. *)
Definition execute_call (c : TypeCommand.t) : call TextEditor.Heap :=
  CallExecute (TypeCommand.as_Command c).

(** The calls whose command, if any, is a [TypeCommand]. *)
Inductive from_TypeCommand : call TextEditor.Heap -> Prop :=
| from_execute (c : TypeCommand.t) : from_TypeCommand (execute_call c)
| from_undo : from_TypeCommand CallUndo
| from_redo : from_TypeCommand CallRedo.

(** The record holds the commands [tcs], the cursor is in range, and every
    editor holds what it held at the start ([h0]) followed by what the
    applied commands typed into it. *)
Definition consistent (h0 : TextEditor.Heap) (tcs : list TypeCommand.t)
  (s : CommandManager.Sys TextEditor.Heap) : Prop :=
  CommandManager.commands (CommandManager.this s) = map TypeCommand.as_Command tcs
  /\ index_in_range (CommandManager.this s)
  /\ forall l, text_of l s
               = TextEditor.text (h0 l) ++ typed_on l (applied (CommandManager.index (CommandManager.this s)) tcs).

(** ** The client code (lines 99-106) *)

Module Client.

(** [const editor = new TextEditor();] the first object allocated. *)
Definition editor : ref := 0%nat.

(** Before the script: no text in any editor, nothing printed,
    [const commandManager = new CommandManager();]. *)
Definition start : CommandManager.Sys TextEditor.Heap :=
  fresh (mkWorld (fun _ => TextEditor.new) []).

Definition hello : TypeCommand.t := TypeCommand.mk editor (lit "Hello").

Definition world : TypeCommand.t := TypeCommand.mk editor (lit " World!").

(** The four calls of the script. *)
Definition script : list (call TextEditor.Heap) :=
  [ CallExecute (TypeCommand.as_Command hello);
    CallExecute (TypeCommand.as_Command world);
    CallUndo;
    CallRedo ].

End Client.

(** ** Commands used to exercise the manager *)

Module Fixture.

(** A command whose methods print and then throw [v]. *)
Definition failing {T : Type} (v : jsstring) : Command.t T :=
  Command.mk (console_log (lit "about to fail") ;; throw (Thrown v))
             (console_log (lit "about to fail") ;; throw (Thrown v)).

(** Three commands typing one letter each into the client's editor. *)
Definition A : TypeCommand.t := TypeCommand.mk Client.editor (lit "A").
Definition B : TypeCommand.t := TypeCommand.mk Client.editor (lit "B").
Definition C : TypeCommand.t := TypeCommand.mk Client.editor (lit "C").

Definition ABC : list (call TextEditor.Heap) :=
  [ CallExecute (TypeCommand.as_Command A);
    CallExecute (TypeCommand.as_Command B);
    CallExecute (TypeCommand.as_Command C) ].

(** The state after executing [A], [B], [C] and undoing once: the cursor is
    on [B], and [C] can be redone. *)
Definition mid : CommandManager.Sys TextEditor.Heap :=
  snd (CommandManager.undo (run ABC Client.start)).

(** A command on a counter that can be executed only once: the first
    [execute] sets the counter, a later one throws; [undo] does nothing. *)
Definition once : Command.t nat :=
  Command.mk
    (fun w =>
       if Nat.eqb (target w) 0 then (Normal tt, mkWorld 1%nat (console w))
       else (Abrupt (Thrown (lit "again")), w))
    (ret tt).

End Fixture.

(** ** The capacity bound of the specification *)

Module Bounded.

(** Modelled from the spec: the errors of a history request (sections 4.2
    and 7, [HistoryError::NothingToUndo] and [NothingToRedo]). The source
    has no such type: its [undo] and [redo] print a message and return. *)
Inductive HistoryError : Type :=
| NothingToUndo
| NothingToRedo.

(** Modelled from the spec: the result of a request to the engine
    ([Result<(), OperationError>] and [Result<(), HistoryError>] of
    section 6). An operation fails by throwing, as a command of the source
    does. *)
Inductive outcome : Type :=
| Done
| OperationFailed (e : exn)
| HistoryFailed (h : HistoryError).

(** Modelled from the spec: the test of step 3 of [execute], "the
    resulting length exceeds capacity [N]", for the option
    [maxHistory] of sections 4.2 and 6 ([None]: the default, unbounded).
    The source's [CommandManager] has no such option. *)
Definition exceeds (maxHistory : option nat) (len : nat) : bool :=
  match maxHistory with
  | Some n => Nat.ltb n len
  | None => false
  end.

(** Modelled from the spec: [execute] of section 4.2, with the capacity
    bound that [CommandManager.executeCommand] of the source lacks.
    Step 1: call [op.apply]; when it fails the record and the cursor are
    left unchanged and the error goes to the caller. Step 2: truncate the
    record to [index + 1] entries, append [op], increment [index]. Step 3:
    when the resulting length exceeds the capacity, remove the entry at
    position 0 and decrement [index] by one. [apply] is [execute] of the
    source's [Command]. *)
Definition execute {T : Type} (maxHistory : option nat) (op : Command.t T)
  (s : CommandManager.Sys T) : outcome * CommandManager.Sys T :=
  match Command.execute op (CommandManager.env s) with
  | (Abrupt e, w') => (OperationFailed e, CommandManager.mkSys (CommandManager.this s) w')
  | (Normal _, w') =>
      let record :=
        applied (CommandManager.index (CommandManager.this s))
                (CommandManager.commands (CommandManager.this s)) ++ [op] in
      let index := CommandManager.index (CommandManager.this s) + 1 in
      if exceeds maxHistory (length record)
      then (Done, CommandManager.mkSys (CommandManager.mk (tl record) (index - 1)) w')
      else (Done, CommandManager.mkSys (CommandManager.mk record index) w')
  end.

(** Modelled from the spec: [undo] of section 4.2, which the source's
    [CommandManager.undo] follows except at [index == -1]: it fails with
    [NothingToUndo] there; otherwise it calls [revert] on the operation at
    [index] and then decrements [index], and when [revert] fails it leaves
    [index] unchanged and hands the error on. [revert] is [undo] of the
    source's [Command]. The specification keeps [index] within the record
    (Invariant 1), so it says nothing of a cursor with no operation under
    it; the model reports [NothingToUndo] there as well. *)
Definition undo {T : Type} (s : CommandManager.Sys T)
  : outcome * CommandManager.Sys T :=
  if CommandManager.index (CommandManager.this s) =? -1
  then (HistoryFailed NothingToUndo, s)
  else
    match element_at (CommandManager.commands (CommandManager.this s))
                     (CommandManager.index (CommandManager.this s)) with
    | Some c =>
        match Command.undo c (CommandManager.env s) with
        | (Normal _, w') =>
            (Done,
             CommandManager.mkSys
               (CommandManager.mk (CommandManager.commands (CommandManager.this s))
                                  (CommandManager.index (CommandManager.this s) - 1))
               w')
        | (Abrupt e, w') =>
            (OperationFailed e, CommandManager.mkSys (CommandManager.this s) w')
        end
    | None => (HistoryFailed NothingToUndo, s)
    end.

(** One request to the engine. *)
Inductive request (T : Type) : Type :=
| ReqExecute (op : Command.t T)
| ReqUndo.
Arguments ReqExecute {T} op.
Arguments ReqUndo {T}.

Definition serve {T : Type} (maxHistory : option nat) (r : request T)
  : CommandManager.Sys T -> outcome * CommandManager.Sys T :=
  match r with
  | ReqExecute op => execute maxHistory op
  | ReqUndo => undo
  end.

(** The requests [rs] served in sequence, from the state [s]. *)
Fixpoint run {T : Type} (maxHistory : option nat) (rs : list (request T))
  (s : CommandManager.Sys T) : CommandManager.Sys T :=
  match rs with
  | [] => s
  | r :: rest => run maxHistory rest (snd (serve maxHistory r s))
  end.



End Bounded.

(** Unfolds a method of the manager down to the state it computes. *)
Ltac js_unfold :=
  unfold CommandManager.executeCommand, CommandManager.undo, CommandManager.redo,
    CommandManager.invoke, CommandManager.in_world, CommandManager.get_index,
    CommandManager.set_index, CommandManager.get_commands,
    CommandManager.set_commands, console_log, bind, gets, modify, throw, ret.

(** * Properties *)

Import CommandManager.

(** ** Arrays and strings *)

Lemma relative_index_nonneg (len : nat) (k : Z) :
  0 <= k -> relative_index len k = Nat.min (Z.to_nat k) len.
Proof.
  intros Hk. unfold relative_index.
  destruct (Z.ltb_spec k 0) as [Hlt | _]; [lia |].
  lia.
Qed.

Lemma firstn_min {A : Type} (n : nat) (l : list A) :
  firstn (Nat.min n (length l)) l = firstn n l.
Proof.
  destruct (Nat.le_ge_cases n (length l)) as [Hle | Hge].
  - now rewrite Nat.min_l.
  - rewrite Nat.min_r by assumption.
    now rewrite !firstn_all2 by lia.
Qed.

(** From a cursor that is not below [-1], [splice(index + 1)] keeps
    exactly the first [index + 1] entries. *)
Lemma splice_after_cursor {A : Type} (cs : list A) (i : Z) :
  -1 <= i -> fst (splice cs (i + 1)) = applied i cs.
Proof.
  intros Hi. unfold splice, applied. cbn [fst].
  rewrite relative_index_nonneg by lia.
  apply firstn_min.
Qed.

(** Below [-1] it does not: a negative start counts from the end. *)
Lemma splice_below_cursor_range :
  fst (splice [1; 2; 3] (-3 + 1)) = [1] /\ applied (-3) [1; 2; 3] = [].
Proof. split; reflexivity. Qed.

Lemma slice_drop_last {A : Type} (s : list A) (a : A) :
  slice (s ++ [a]) 0 (-1) = s.
Proof.
  unfold slice, relative_index. cbn [Z.ltb Z.compare].
  rewrite length_app. cbn [length].
  replace (Z.to_nat (Z.min 0 (Z.of_nat (length s + 1)))) with 0%nat by lia.
  replace (Z.to_nat (Z.max (Z.of_nat (length s + 1) + -1) 0) - 0)%nat
    with (length s) by lia.
  cbn [skipn].
  rewrite firstn_app, firstn_all, Nat.sub_diag. cbn. apply app_nil_r.
Qed.

Lemma slice_empty {A : Type} : slice (@nil A) 0 (-1) = [].
Proof. reflexivity. Qed.

(** ** The three methods, case by case *)

Lemma executeCommand_eq {T : Type} (op : Command.t T) (s : Sys T) :
  executeCommand op s =
  match Command.execute op (env s) with
  | (Normal _, w') =>
      (Normal tt,
       mkSys (mk (fst (splice (commands (this s)) (index (this s) + 1)) ++ [op])
                 (index (this s) + 1)) w')
  | (Abrupt e, w') => (Abrupt e, mkSys (this s) w')
  end.
Proof.
  js_unfold. destruct (Command.execute op (env s)) as [[[] | e] w']; reflexivity.
Qed.

Lemma undo_eq {T : Type} (s : Sys T) :
  undo s =
  if canUndo (this s) then
    match element_at (commands (this s)) (index (this s)) with
    | Some c =>
        match Command.undo c (env s) with
        | (Normal _, w') =>
            (Normal tt, mkSys (mk (commands (this s)) (index (this s) - 1)) w')
        | (Abrupt e, w') => (Abrupt e, mkSys (this s) w')
        end
    | None => (Abrupt TypeError, s)
    end
  else (Normal tt, mkSys (this s) (logged (lit "No command to undo.") (env s))).
Proof.
  js_unfold. destruct (canUndo (this s)); [| reflexivity].
  cbn. destruct (element_at (commands (this s)) (index (this s))) as [c |];
    [| reflexivity].
  destruct (Command.undo c (env s)) as [[[] | e] w']; reflexivity.
Qed.

Lemma redo_eq {T : Type} (s : Sys T) :
  redo s =
  if canRedo (this s) then
    let advanced := mk (commands (this s)) (index (this s) + 1) in
    match element_at (commands (this s)) (index (this s) + 1) with
    | Some c =>
        let (r, w') := Command.execute c (env s) in (r, mkSys advanced w')
    | None => (Abrupt TypeError, mkSys advanced (env s))
    end
  else (Normal tt, mkSys (this s) (logged (lit "No command to redo.") (env s))).
Proof.
  js_unfold. destruct (canRedo (this s)); [| reflexivity].
  cbn. destruct (element_at (commands (this s)) (index (this s) + 1)) as [c |];
    reflexivity.
Qed.

Lemma element_at_in_range {A : Type} (cs : list A) (i : Z) :
  0 <= i < Z.of_nat (length cs) -> exists c, element_at cs i = Some c.
Proof.
  intros Hi. unfold element_at.
  destruct (Z.ltb_spec i 0) as [Hlt | _]; [lia |].
  destruct (nth_error cs (Z.to_nat i)) as [c |] eqn:Hnth; [now exists c |].
  apply nth_error_None in Hnth. lia.
Qed.

Lemma canUndo_true_iff {T : Type} (m : t T) : canUndo m = true <-> 0 <= index m.
Proof. unfold canUndo. apply Z.leb_le. Qed.

Lemma canRedo_true_iff {T : Type} (m : t T) :
  canRedo m = true <-> index m + 1 < Z.of_nat (length (commands m)).
Proof. unfold canRedo. apply Z.ltb_lt. Qed.

Lemma canUndo_false_iff {T : Type} (m : t T) : canUndo m = false <-> index m < 0.
Proof. unfold canUndo. apply Z.leb_gt. Qed.

Lemma canRedo_false_iff {T : Type} (m : t T) :
  canRedo m = false <-> Z.of_nat (length (commands m)) <= index m + 1.
Proof. unfold canRedo. apply Z.ltb_ge. Qed.

(** ** C1: a successful execute truncates, appends, advances *)

(** C1. From every state whose cursor is not below [-1] (every state the
    manager can be in, by [index_stays_in_range]) and for every operation
    [op] whose [execute] returns normally, [executeCommand op] leaves the
    record equal to its first [index + 1] entries followed by [op], and the
    cursor one further. *)
Theorem executeCommand_truncates_appends_advances {T : Type}
  (m : t T) (w w' : World T) (op : Command.t T) :
  -1 <= index m ->
  Command.execute op w = (Normal tt, w') ->
  executeCommand op (mkSys m w) =
  (Normal tt, mkSys (mk (applied (index m) (commands m) ++ [op]) (index m + 1)) w').
Proof.
  intros Hi Hexec.
  rewrite executeCommand_eq. cbn [env this]. rewrite Hexec.
  now rewrite splice_after_cursor.
Qed.

Lemma executeCommand_truncates_appends_advances_witness :
  -1 <= index (this Fixture.mid)
  /\ Command.execute (TypeCommand.as_Command Client.hello) (env Fixture.mid)
     = (Normal tt, snd (TypeCommand.execute Client.hello (env Fixture.mid)))
  /\ executeCommand (TypeCommand.as_Command Client.hello)
       (mkSys (this Fixture.mid) (env Fixture.mid))
     = (Normal tt,
        mkSys (mk (applied (index (this Fixture.mid)) (commands (this Fixture.mid))
                   ++ [TypeCommand.as_Command Client.hello])
                  (index (this Fixture.mid) + 1))
              (snd (TypeCommand.execute Client.hello (env Fixture.mid)))).
Proof.
  split; [vm_compute; discriminate |].
  split; [reflexivity |].
  apply executeCommand_truncates_appends_advances;
    [vm_compute; discriminate | reflexivity].
Defined.

(** ** C5: a failing execute records nothing *)

(** C5. For every state and every operation [op], if [op.execute()] throws
    [e], then [executeCommand op] throws the same [e] to its caller and
    the manager (record and cursor) is what it was before the call; the
    world is the one the failed [execute] left. *)
Theorem executeCommand_failure_atomic {T : Type}
  (s : Sys T) (op : Command.t T) (e : exn) (w' : World T) :
  Command.execute op (env s) = (Abrupt e, w') ->
  fst (executeCommand op s) = Abrupt e
  /\ this (snd (executeCommand op s)) = this s
  /\ length (commands (this (snd (executeCommand op s))))
     = length (commands (this s))
  /\ index (this (snd (executeCommand op s))) = index (this s)
  /\ env (snd (executeCommand op s)) = w'.
Proof.
  intros Hexec. rewrite executeCommand_eq, Hexec. cbn. auto.
Qed.

Lemma executeCommand_failure_atomic_witness :
  Command.execute (Fixture.failing (lit "boom")) (env Fixture.mid)
  = (Abrupt (Thrown (lit "boom")),
     logged (lit "about to fail") (env Fixture.mid))
  /\ fst (executeCommand (Fixture.failing (lit "boom")) Fixture.mid)
     = Abrupt (Thrown (lit "boom"))
  /\ length (commands (this (snd (executeCommand (Fixture.failing (lit "boom"))
                                    Fixture.mid)))) = 3%nat
  /\ index (this (snd (executeCommand (Fixture.failing (lit "boom"))
                         Fixture.mid))) = 1.
Proof.
  split; [reflexivity |].
  destruct (executeCommand_failure_atomic Fixture.mid
              (Fixture.failing (lit "boom")) (Thrown (lit "boom"))
              (logged (lit "about to fail") (env Fixture.mid)) eq_refl)
    as (Hr & _ & Hlen & Hidx & _).
  split; [exact Hr |].
  split; [rewrite Hlen | rewrite Hidx]; reflexivity.
Defined.

(** ** C2: undo *)

(** The claim as the specification words it fails on a new manager:
    [undo()] throws nothing there; it prints a message and returns. *)
Lemma undo_on_new_manager_returns_normally :
  index (this Client.start) = -1
  /\ fst (undo Client.start) = Normal tt
  /\ console (env (snd (undo Client.start))) = [lit "No command to undo."]
  /\ ~ (exists e : exn, fst (undo Client.start) = Abrupt e).
Proof.
  repeat split; try reflexivity.
  intros [e He]. discriminate He.
Qed.

(** C2, amended. In every state with the cursor in range: when the cursor
    is [-1], [undo()] reports no error; it prints "No command to undo." and
    returns normally with the manager and the target untouched. Otherwise
    it calls [undo] on the operation at the cursor; when that returns, the
    cursor is one lower; when that throws, the throw reaches the caller and
    the manager, cursor included, is unchanged. *)
Theorem undo_behaviour {T : Type} (s : Sys T) :
  index_in_range (this s) ->
  (index (this s) = -1 ->
   undo s = (Normal tt, mkSys (this s) (logged (lit "No command to undo.") (env s))))
  /\ (index (this s) <> -1 ->
      exists c : Command.t T,
        element_at (commands (this s)) (index (this s)) = Some c
        /\ (forall w', Command.undo c (env s) = (Normal tt, w') ->
            undo s = (Normal tt, mkSys (mk (commands (this s)) (index (this s) - 1)) w'))
        /\ (forall e w', Command.undo c (env s) = (Abrupt e, w') ->
            undo s = (Abrupt e, mkSys (this s) w'))).
Proof.
  intros [Hlo Hhi]. split.
  - intros Hi. rewrite undo_eq.
    replace (canUndo (this s)) with false; [reflexivity |].
    symmetry. apply canUndo_false_iff. lia.
  - intros Hi.
    destruct (element_at_in_range (commands (this s)) (index (this s)))
      as [c Hc]; [lia |].
    exists c. split; [exact Hc |].
    assert (Hcan : canUndo (this s) = true) by (apply canUndo_true_iff; lia).
    split.
    + intros w' Hundo. now rewrite undo_eq, Hcan, Hc, Hundo.
    + intros e w' Hundo. now rewrite undo_eq, Hcan, Hc, Hundo.
Qed.

Lemma undo_behaviour_witness :
  (index_in_range (this Client.start)
   /\ index (this Client.start) = -1
   /\ undo Client.start
      = (Normal tt,
         mkSys (this Client.start)
               (logged (lit "No command to undo.") (env Client.start))))
  /\ (index_in_range (this Fixture.mid)
      /\ index (this Fixture.mid) <> -1
      /\ exists c : Command.t TextEditor.Heap,
           element_at (commands (this Fixture.mid)) (index (this Fixture.mid)) = Some c
           /\ (forall w', Command.undo c (env Fixture.mid) = (Normal tt, w') ->
               undo Fixture.mid
               = (Normal tt,
                  mkSys (mk (commands (this Fixture.mid))
                            (index (this Fixture.mid) - 1)) w'))
           /\ (forall e w', Command.undo c (env Fixture.mid) = (Abrupt e, w') ->
               undo Fixture.mid = (Abrupt e, mkSys (this Fixture.mid) w'))).
Proof.
  assert (Hr0 : index_in_range (this Client.start))
    by (unfold index_in_range; vm_compute; split; discriminate).
  assert (Hr : index_in_range (this Fixture.mid))
    by (unfold index_in_range; vm_compute; split; discriminate).
  assert (Hi : index (this Fixture.mid) <> -1) by (vm_compute; discriminate).
  split.
  - split; [exact Hr0 |]. split; [reflexivity |].
    exact (proj1 (undo_behaviour Client.start Hr0) eq_refl).
  - split; [exact Hr |]. split; [exact Hi |].
    exact (proj2 (undo_behaviour Fixture.mid Hr) Hi).
Defined.

(** ** C3: redo *)

(** The claim as the specification words it fails on a new manager:
    [redo()] throws nothing there; it prints a message and returns. *)
Lemma redo_on_new_manager_returns_normally :
  index (this Client.start)
  = Z.of_nat (length (commands (this Client.start))) - 1
  /\ fst (redo Client.start) = Normal tt
  /\ console (env (snd (redo Client.start))) = [lit "No command to redo."]
  /\ ~ (exists e : exn, fst (redo Client.start) = Abrupt e).
Proof.
  repeat split; try reflexivity.
  intros [e He]. discriminate He.
Qed.

(** C3, amended. In every state with the cursor in range: when the cursor
    is on the last entry (or the record is empty), [redo()] reports no
    error; it prints "No command to redo." and returns normally with the
    manager and the target untouched. Otherwise it moves the cursor one up
    and calls [execute] on the operation now at the cursor; when that
    returns, the cursor stays one higher; when that throws, the throw
    reaches the caller and the record is unchanged. *)
Theorem redo_behaviour {T : Type} (s : Sys T) :
  index_in_range (this s) ->
  (index (this s) = Z.of_nat (length (commands (this s))) - 1 ->
   redo s = (Normal tt, mkSys (this s) (logged (lit "No command to redo.") (env s))))
  /\ (index (this s) <> Z.of_nat (length (commands (this s))) - 1 ->
      exists c : Command.t T,
        element_at (commands (this s)) (index (this s) + 1) = Some c
        /\ (forall w', Command.execute c (env s) = (Normal tt, w') ->
            redo s = (Normal tt, mkSys (mk (commands (this s)) (index (this s) + 1)) w'))
        /\ (forall e w', Command.execute c (env s) = (Abrupt e, w') ->
            fst (redo s) = Abrupt e
            /\ commands (this (snd (redo s))) = commands (this s)
            /\ env (snd (redo s)) = w')).
Proof.
  intros [Hlo Hhi]. split.
  - intros Hi. rewrite redo_eq.
    replace (canRedo (this s)) with false; [reflexivity |].
    symmetry. apply canRedo_false_iff. lia.
  - intros Hi.
    destruct (element_at_in_range (commands (this s)) (index (this s) + 1))
      as [c Hc]; [lia |].
    exists c. split; [exact Hc |].
    assert (Hcan : canRedo (this s) = true) by (apply canRedo_true_iff; lia).
    split.
    + intros w' Hexec. now rewrite redo_eq, Hcan; cbn zeta; rewrite Hc, Hexec.
    + intros e w' Hexec. rewrite redo_eq, Hcan; cbn zeta. rewrite Hc, Hexec.
      cbn. auto.
Qed.

Lemma redo_behaviour_witness :
  (index_in_range (this Client.start)
   /\ index (this Client.start)
      = Z.of_nat (length (commands (this Client.start))) - 1
   /\ redo Client.start
      = (Normal tt,
         mkSys (this Client.start)
               (logged (lit "No command to redo.") (env Client.start))))
  /\ (index_in_range (this Fixture.mid)
      /\ index (this Fixture.mid)
         <> Z.of_nat (length (commands (this Fixture.mid))) - 1
      /\ exists c : Command.t TextEditor.Heap,
           element_at (commands (this Fixture.mid)) (index (this Fixture.mid) + 1)
           = Some c
           /\ (forall w', Command.execute c (env Fixture.mid) = (Normal tt, w') ->
               redo Fixture.mid
               = (Normal tt,
                  mkSys (mk (commands (this Fixture.mid))
                            (index (this Fixture.mid) + 1)) w'))
           /\ (forall e w', Command.execute c (env Fixture.mid) = (Abrupt e, w') ->
               fst (redo Fixture.mid) = Abrupt e
               /\ commands (this (snd (redo Fixture.mid)))
                  = commands (this Fixture.mid)
               /\ env (snd (redo Fixture.mid)) = w')).
Proof.
  assert (Hr0 : index_in_range (this Client.start))
    by (unfold index_in_range; vm_compute; split; discriminate).
  assert (Hr : index_in_range (this Fixture.mid))
    by (unfold index_in_range; vm_compute; split; discriminate).
  assert (Hi : index (this Fixture.mid)
               <> Z.of_nat (length (commands (this Fixture.mid))) - 1)
    by (vm_compute; discriminate).
  split.
  - split; [exact Hr0 |]. split; [reflexivity |].
    exact (proj1 (redo_behaviour Client.start Hr0) eq_refl).
  - split; [exact Hr |]. split; [exact Hi |].
    exact (proj2 (redo_behaviour Fixture.mid Hr) Hi).
Defined.

(** What the amended C3 leaves open: when the redone [execute] throws, the
    cursor has already moved and is not moved back. *)
Lemma redo_throw_keeps_cursor_advanced {T : Type}
  (s : Sys T) (c : Command.t T) (e : exn) (w' : World T) :
  canRedo (this s) = true ->
  element_at (commands (this s)) (index (this s) + 1) = Some c ->
  Command.execute c (env s) = (Abrupt e, w') ->
  redo s = (Abrupt e, mkSys (mk (commands (this s)) (index (this s) + 1)) w').
Proof.
  intros Hcan Hc Hexec. rewrite redo_eq, Hcan. cbn zeta. now rewrite Hc, Hexec.
Qed.

(** A caller reaches such a state: execute [once], undo it, redo it. *)
Lemma redo_throw_reached :
  let before := run [CallExecute Fixture.once; CallUndo] (fresh (mkWorld 0%nat [])) in
  index (this before) = -1
  /\ fst (redo before) = Abrupt (Thrown (lit "again"))
  /\ index (this (snd (redo before))) = 0.
Proof. repeat split. Qed.

(** ** C10: undo and redo leave the record alone *)

(** C10. In every state, whatever [undo()] and [redo()] do (move the
    cursor, run a command, print, throw), the record of operations after
    the call is the record before it, entry for entry. *)
Theorem undo_redo_keep_record {T : Type} (s : Sys T) :
  commands (this (snd (undo s))) = commands (this s)
  /\ commands (this (snd (redo s))) = commands (this s).
Proof.
  split.
  - rewrite undo_eq. destruct (canUndo (this s)); [| reflexivity].
    destruct (element_at (commands (this s)) (index (this s))) as [c |];
      [| reflexivity].
    destruct (Command.undo c (env s)) as [[[] | e] w']; reflexivity.
  - rewrite redo_eq. destruct (canRedo (this s)); [| reflexivity].
    cbn zeta.
    destruct (element_at (commands (this s)) (index (this s) + 1)) as [c |];
      [| reflexivity].
    destruct (Command.execute c (env s)) as [r w']. reflexivity.
Qed.

(** ** C6: the cursor stays in range *)

Lemma length_applied {A : Type} (i : Z) (cs : list A) :
  -1 <= i <= Z.of_nat (length cs) - 1 ->
  Z.of_nat (length (applied i cs)) = i + 1.
Proof.
  intros Hi. unfold applied. rewrite length_firstn. lia.
Qed.

Lemma new_in_range {T : Type} : index_in_range (@new T).
Proof. unfold index_in_range. cbn. lia. Qed.

Lemma executeCommand_in_range {T : Type} (op : Command.t T) (s : Sys T) :
  index_in_range (this s) -> index_in_range (this (snd (executeCommand op s))).
Proof.
  intros Hr. rewrite executeCommand_eq.
  destruct (Command.execute op (env s)) as [[[] | e] w']; [| exact Hr].
  unfold index_in_range in *. cbn [snd this commands index].
  rewrite splice_after_cursor by lia.
  rewrite length_app, Nat2Z.inj_add, length_applied by lia.
  cbn [length]. lia.
Qed.

Lemma undo_in_range {T : Type} (s : Sys T) :
  index_in_range (this s) -> index_in_range (this (snd (undo s))).
Proof.
  intros Hr. rewrite undo_eq.
  destruct (canUndo (this s)) eqn:Hcan; [| exact Hr].
  apply canUndo_true_iff in Hcan.
  destruct (element_at (commands (this s)) (index (this s))) as [c |];
    [| exact Hr].
  destruct (Command.undo c (env s)) as [[[] | e] w']; [| exact Hr].
  unfold index_in_range in *. cbn [snd this commands index]. lia.
Qed.

Lemma redo_in_range {T : Type} (s : Sys T) :
  index_in_range (this s) -> index_in_range (this (snd (redo s))).
Proof.
  intros Hr. rewrite redo_eq.
  destruct (canRedo (this s)) eqn:Hcan; [| exact Hr].
  apply canRedo_true_iff in Hcan. cbn zeta.
  assert (Hadv : index_in_range (mk (commands (this s)) (index (this s) + 1)))
    by (unfold index_in_range in *; cbn [commands index]; lia).
  destruct (element_at (commands (this s)) (index (this s) + 1)) as [c |];
    [| exact Hadv].
  destruct (Command.execute c (env s)) as [r w']. exact Hadv.
Qed.

Lemma perform_in_range {T : Type} (k : call T) (s : Sys T) :
  index_in_range (this s) -> index_in_range (this (snd (perform k s))).
Proof.
  destruct k; cbn [perform];
    auto using executeCommand_in_range, undo_in_range, redo_in_range.
Qed.

Lemma run_in_range {T : Type} (ks : list (call T)) :
  forall s : Sys T, index_in_range (this s) -> index_in_range (this (run ks s)).
Proof.
  induction ks as [| k rest IH]; intros s Hr; cbn [run]; [exact Hr |].
  apply IH, perform_in_range, Hr.
Qed.

(** C6. After any sequence of [executeCommand], [undo] and [redo] calls on
    a new manager, whichever of them returned and whichever threw, the
    cursor lies between [-1] and [length - 1]. *)
Theorem index_stays_in_range {T : Type} (ks : list (call T)) (w : World T) :
  -1 <= index (this (run ks (fresh w)))
  <= Z.of_nat (length (commands (this (run ks (fresh w))))) - 1.
Proof.
  apply (run_in_range ks (fresh w)). apply new_in_range.
Qed.

(** Every state a caller can bring a manager to has its cursor in range. *)
Lemma reachable_in_range {T : Type} (s : Sys T) :
  reachable s -> index_in_range (this s).
Proof.
  intros (ks & w & ->). apply run_in_range, new_in_range.
Qed.

(** ** C8: after a successful execute *)

(** C8. From every state with the cursor in range (so from every state the
    manager can be in), right after [executeCommand op] returns normally
    the cursor is on the last entry: the test of [redo] is false and the
    test of [undo] is true. *)
Theorem execute_leaves_cursor_on_last {T : Type} (s : Sys T) (op : Command.t T) :
  index_in_range (this s) ->
  fst (executeCommand op s) = Normal tt ->
  index (this (snd (executeCommand op s)))
  = Z.of_nat (length (commands (this (snd (executeCommand op s))))) - 1
  /\ canRedo (this (snd (executeCommand op s))) = false
  /\ canUndo (this (snd (executeCommand op s))) = true.
Proof.
  intros Hr. rewrite executeCommand_eq.
  destruct (Command.execute op (env s)) as [[[] | e] w']; [| discriminate].
  intros _. cbn [snd this]. unfold index_in_range in Hr.
  assert (Hlast : index (mk (fst (splice (commands (this s)) (index (this s) + 1)) ++ [op])
                            (index (this s) + 1))
                  = Z.of_nat (length (commands
                      (mk (fst (splice (commands (this s)) (index (this s) + 1)) ++ [op])
                          (index (this s) + 1)))) - 1).
  { cbn [commands index]. rewrite splice_after_cursor by lia.
    rewrite length_app, Nat2Z.inj_add, length_applied by lia.
    cbn [length]. lia. }
  split; [exact Hlast |]. split.
  - apply canRedo_false_iff. lia.
  - apply canUndo_true_iff. rewrite Hlast.
    cbn [commands]. rewrite length_app. cbn [length]. lia.
Qed.

Lemma execute_leaves_cursor_on_last_witness :
  index_in_range (this Fixture.mid)
  /\ fst (executeCommand (TypeCommand.as_Command Client.hello) Fixture.mid) = Normal tt
  /\ index (this (snd (executeCommand (TypeCommand.as_Command Client.hello) Fixture.mid)))
     = Z.of_nat (length (commands (this (snd (executeCommand
         (TypeCommand.as_Command Client.hello) Fixture.mid))))) - 1
  /\ canRedo (this (snd (executeCommand (TypeCommand.as_Command Client.hello)
                          Fixture.mid))) = false
  /\ canUndo (this (snd (executeCommand (TypeCommand.as_Command Client.hello)
                          Fixture.mid))) = true.
Proof.
  assert (Hr : index_in_range (this Fixture.mid))
    by (unfold index_in_range; vm_compute; split; discriminate).
  split; [exact Hr |]. split; [reflexivity |].
  exact (execute_leaves_cursor_on_last Fixture.mid
           (TypeCommand.as_Command Client.hello) Hr eq_refl).
Defined.

(** ** C9: the client script *)

(** C9. The script of the source: the editor starts empty; after
    [executeCommand(Hello)] it holds "Hello", after [executeCommand( World!)]
    "Hello World!", after [undo()] "Hello", after [redo()] "Hello World!";
    the last lines printed by [undo()] and [redo()] are the ones the
    source's comments give. *)
Theorem client_scenario :
  fst (TextEditor.getText Client.editor (env Client.start)) = Normal (lit "")
  /\ fst (TextEditor.getText Client.editor
            (env (run (firstn 1 Client.script) Client.start)))
     = Normal (lit "Hello")
  /\ fst (TextEditor.getText Client.editor
            (env (run (firstn 2 Client.script) Client.start)))
     = Normal (lit "Hello World!")
  /\ fst (TextEditor.getText Client.editor
            (env (run (firstn 3 Client.script) Client.start)))
     = Normal (lit "Hello")
  /\ fst (TextEditor.getText Client.editor
            (env (run Client.script Client.start)))
     = Normal (lit "Hello World!")
  /\ all_normal Client.script Client.start = true
  /\ last (console (env (run (firstn 3 Client.script) Client.start))) []
     = lit "Current Text after delete: Hello"
  /\ last (console (env (run Client.script Client.start))) []
     = lit "Current Text: Hello World!".
Proof. repeat split. Qed.

(** ** The source's manager keeps every entry *)

(** [CommandManager] itself takes no [maxHistory]: after [A], [B], [C] its
    record holds three entries, and the third [undo()] still finds [A] and
    reverts it. *)
Lemma oldest_entry_is_not_evicted :
  length (commands (this (run Fixture.ABC Client.start))) = 3%nat
  /\ length (commands (this (run Fixture.ABC Client.start))) <> 2%nat
  /\ text_of Client.editor
       (run (Fixture.ABC ++ [CallUndo; CallUndo]) Client.start) = lit "A"
  /\ canUndo (this (run (Fixture.ABC ++ [CallUndo; CallUndo]) Client.start)) = true
  /\ text_of Client.editor
       (run (Fixture.ABC ++ [CallUndo; CallUndo; CallUndo]) Client.start) = lit ""
  /\ last (console (env (run (Fixture.ABC ++ [CallUndo; CallUndo; CallUndo])
                           Client.start))) []
     = lit "Current Text after delete: ".
Proof. repeat split. discriminate. Qed.

Lemma all_normal_cons {T : Type} (k : call T) (rest : list (call T)) (s : Sys T) :
  all_normal (k :: rest) s = true ->
  fst (perform k s) = Normal tt /\ all_normal rest (snd (perform k s)) = true.
Proof.
  cbn [all_normal]. intros H. apply andb_prop in H. destruct H as [Hk Hrest].
  split; [| exact Hrest].
  destruct (fst (perform k s)) as [[] | e]; [reflexivity | discriminate Hk].
Qed.

(** When an execute returns normally from a state in range, the record
    is the applied part followed by the new entry. *)
Lemma executeCommand_normal {T : Type} (op : Command.t T) (s : Sys T) :
  -1 <= index (this s) ->
  fst (executeCommand op s) = Normal tt ->
  snd (executeCommand op s)
  = mkSys (mk (applied (index (this s)) (commands (this s)) ++ [op])
              (index (this s) + 1))
          (snd (Command.execute op (env s))).
Proof.
  intros Hi. rewrite executeCommand_eq.
  destruct (Command.execute op (env s)) as [[[] | e] w']; [| discriminate].
  intros _. cbn [snd]. now rewrite splice_after_cursor.
Qed.

(** When an undo returns normally from a state where the cursor is on the
    entry [c], it has run [c.undo()] and stepped the cursor back. *)
Lemma undo_normal {T : Type} (c : Command.t T) (s : Sys T) :
  0 <= index (this s) ->
  element_at (commands (this s)) (index (this s)) = Some c ->
  fst (undo s) = Normal tt ->
  snd (undo s)
  = mkSys (mk (commands (this s)) (index (this s) - 1))
          (snd (Command.undo c (env s))).
Proof.
  intros Hi Hc. rewrite undo_eq.
  replace (canUndo (this s)) with true by (symmetry; now apply canUndo_true_iff).
  rewrite Hc.
  destruct (Command.undo c (env s)) as [[[] | e] w']; [| discriminate].
  reflexivity.
Qed.

(** The same for any three commands. When [A], [B], [C] are executed in
    sequence on a new [CommandManager] and then undone three times, all
    six calls returning normally, the record after the three executes is
    exactly [A; B; C] with the cursor on [C]; the three [undo()] calls run
    the [undo] of [C], of [B] and of [A] in that order and leave the cursor
    at [-1] with the record still [A; B; C]; a fourth [undo()] changes
    nothing but the console, where it prints "No command to undo.", and
    returns normally. *)
Theorem three_executes_keep_three_entries {T : Type}
  (A B C : Command.t T) (w : World T) :
  all_normal [CallExecute A; CallExecute B; CallExecute C;
              CallUndo; CallUndo; CallUndo] (fresh w) = true ->
  this (run [CallExecute A; CallExecute B; CallExecute C] (fresh w))
  = mk [A; B; C] 2
  /\ run [CallExecute A; CallExecute B; CallExecute C;
          CallUndo; CallUndo; CallUndo] (fresh w)
     = mkSys (mk [A; B; C] (-1))
         (snd (Command.undo A (snd (Command.undo B (snd (Command.undo C
           (env (run [CallExecute A; CallExecute B; CallExecute C] (fresh w)))))))))
  /\ undo (run [CallExecute A; CallExecute B; CallExecute C;
                CallUndo; CallUndo; CallUndo] (fresh w))
     = (Normal tt,
        mkSys (mk [A; B; C] (-1))
          (logged (lit "No command to undo.")
             (env (run [CallExecute A; CallExecute B; CallExecute C;
                        CallUndo; CallUndo; CallUndo] (fresh w))))).
Proof.
  intros Hall.
  apply all_normal_cons in Hall. destruct Hall as [HA Hall].
  apply all_normal_cons in Hall. destruct Hall as [HB Hall].
  apply all_normal_cons in Hall. destruct Hall as [HC Hall].
  apply all_normal_cons in Hall. destruct Hall as [H1 Hall].
  apply all_normal_cons in Hall. destruct Hall as [H2 Hall].
  apply all_normal_cons in Hall. destruct Hall as [H3 _].
  cbn [perform run] in *.
  assert (E1 : snd (executeCommand A (fresh w))
               = mkSys (mk [A] 0) (snd (Command.execute A w))).
  { rewrite executeCommand_normal by first [exact HA | cbn; lia]. reflexivity. }
  rewrite E1 in *. set (w1 := snd (Command.execute A w)) in *.
  assert (E2 : snd (executeCommand B (mkSys (mk [A] 0) w1))
               = mkSys (mk [A; B] 1) (snd (Command.execute B w1))).
  { rewrite executeCommand_normal by first [exact HB | cbn; lia]. reflexivity. }
  rewrite E2 in *. set (w2 := snd (Command.execute B w1)) in *.
  assert (E3 : snd (executeCommand C (mkSys (mk [A; B] 1) w2))
               = mkSys (mk [A; B; C] 2) (snd (Command.execute C w2))).
  { rewrite executeCommand_normal by first [exact HC | cbn; lia]. reflexivity. }
  rewrite E3 in *. set (w3 := snd (Command.execute C w2)) in *.
  assert (E4 : snd (undo (mkSys (mk [A; B; C] 2) w3))
               = mkSys (mk [A; B; C] 1) (snd (Command.undo C w3))).
  { rewrite (undo_normal C) by first [exact H1 | reflexivity | cbn; lia].
    reflexivity. }
  rewrite E4 in *. set (w4 := snd (Command.undo C w3)) in *.
  assert (E5 : snd (undo (mkSys (mk [A; B; C] 1) w4))
               = mkSys (mk [A; B; C] 0) (snd (Command.undo B w4))).
  { rewrite (undo_normal B) by first [exact H2 | reflexivity | cbn; lia].
    reflexivity. }
  rewrite E5 in *. set (w5 := snd (Command.undo B w4)) in *.
  assert (E6 : snd (undo (mkSys (mk [A; B; C] 0) w5))
               = mkSys (mk [A; B; C] (-1)) (snd (Command.undo A w5))).
  { rewrite (undo_normal A) by first [exact H3 | reflexivity | cbn; lia].
    reflexivity. }
  rewrite E6.
  split; [reflexivity |]. split; [reflexivity |].
  rewrite undo_eq. reflexivity.
Qed.

Lemma three_executes_keep_three_entries_witness :
  all_normal (Fixture.ABC ++ [CallUndo; CallUndo; CallUndo]) Client.start = true
  /\ this (run Fixture.ABC Client.start)
     = mk [TypeCommand.as_Command Fixture.A; TypeCommand.as_Command Fixture.B;
           TypeCommand.as_Command Fixture.C] 2.
Proof.
  split; [reflexivity |].
  exact (proj1 (three_executes_keep_three_entries
                  (TypeCommand.as_Command Fixture.A)
                  (TypeCommand.as_Command Fixture.B)
                  (TypeCommand.as_Command Fixture.C)
                  (env Client.start) eq_refl)).
Defined.

(** ** C4: eviction at capacity two *)




(** Without a bound, the specification's [execute] is the source's
    [executeCommand]: same state afterwards, and it succeeds exactly when
    [executeCommand] returns normally. *)
Lemma unbounded_execute_is_executeCommand {T : Type} (op : Command.t T) (s : Sys T) :
  -1 <= index (this s) ->
  snd (Bounded.execute None op s) = snd (executeCommand op s)
  /\ (fst (Bounded.execute None op s) = Bounded.Done
      <-> fst (executeCommand op s) = Normal tt)
  /\ (forall e, fst (Bounded.execute None op s) = Bounded.OperationFailed e
                <-> fst (executeCommand op s) = Abrupt e).
Proof.
  intros Hi. rewrite executeCommand_eq. unfold Bounded.execute.
  destruct (Command.execute op (env s)) as [[[] | e] w'];
    cbn [Bounded.exceeds fst snd].
  - rewrite splice_after_cursor by lia. repeat split; intros; discriminate.
  - split; [reflexivity |]. split; [split; discriminate |].
    intros e'. split; intros H; injection H as ->; reflexivity.
Qed.



(** ** C7: undo then redo on text editors *)

Lemma type_spec (r : ref) (t : jsstring) (w : World TextEditor.Heap) :
  fst (TextEditor.type r t w) = Normal tt
  /\ forall l, TextEditor.text (target (snd (TextEditor.type r t w)) l)
               = if Nat.eqb l r then TextEditor.text (target w r) ++ t
                 else TextEditor.text (target w l).
Proof.
  split; [reflexivity |]. intros l. cbn. unfold TextEditor.store.
  destruct (Nat.eqb l r); reflexivity.
Qed.

Lemma delete_spec (r : ref) (w : World TextEditor.Heap) :
  fst (TextEditor.delete r w) = Normal tt
  /\ forall l, TextEditor.text (target (snd (TextEditor.delete r w)) l)
               = if Nat.eqb l r then slice (TextEditor.text (target w r)) 0 (-1)
                 else TextEditor.text (target w l).
Proof.
  split; [reflexivity |]. intros l. cbn. unfold TextEditor.store.
  destruct (Nat.eqb l r); reflexivity.
Qed.

Lemma for_loop_succ {S : Type} (n : nat) (body : js S unit) (s : S) :
  for_loop (Datatypes.S n) body s
  = match body s with
    | (Normal _, s') => for_loop n body s'
    | (Abrupt e, s') => (Abrupt e, s')
    end.
Proof. reflexivity. Qed.

(** Deleting once per code unit of [t] removes a trailing [t] and nothing
    else. *)
Lemma delete_loop_spec (r : ref) (t : jsstring) :
  forall (w : World TextEditor.Heap) (x : jsstring),
    TextEditor.text (target w r) = x ++ t ->
    fst (for_loop (length t) (TextEditor.delete r) w) = Normal tt
    /\ forall l,
         TextEditor.text (target (snd (for_loop (length t) (TextEditor.delete r) w)) l)
         = if Nat.eqb l r then x else TextEditor.text (target w l).
Proof.
  induction t as [| a t IH] using rev_ind; intros w x Hw.
  - cbn. split; [reflexivity |]. intros l.
    destruct (Nat.eqb_spec l r) as [-> | _]; [| reflexivity].
    now rewrite Hw, app_nil_r.
  - rewrite length_app, Nat.add_1_r, for_loop_succ.
    destruct (delete_spec r w) as [Hn Ht].
    destruct (TextEditor.delete r w) as [res w1]. cbn [fst snd] in Hn, Ht.
    subst res.
    assert (Hw1 : TextEditor.text (target w1 r) = x ++ t).
    { rewrite Ht, Nat.eqb_refl, Hw, app_assoc. apply slice_drop_last. }
    destruct (IH w1 x Hw1) as [Hn' Ht']. split; [exact Hn' |].
    intros l. rewrite Ht'.
    destruct (Nat.eqb_spec l r) as [_ | Hne]; [reflexivity |].
    rewrite Ht. now apply Nat.eqb_neq in Hne as ->.
Qed.

Lemma typed_on_snoc (l : ref) (cs : list TypeCommand.t) (c : TypeCommand.t) :
  typed_on l (cs ++ [c])
  = typed_on l cs
    ++ (if Nat.eqb l (TypeCommand.editor c) then TypeCommand.text c else []).
Proof.
  unfold typed_on. rewrite flat_map_app. cbn. now rewrite app_nil_r.
Qed.

Lemma applied_all {A : Type} (i : Z) (cs : list A) :
  Z.of_nat (length cs) - 1 <= i -> applied i cs = cs.
Proof. intros Hi. unfold applied. apply firstn_all2. lia. Qed.

Lemma applied_step {A : Type} (i : Z) (cs : list A) (c : A) :
  0 <= i -> element_at cs i = Some c ->
  applied i cs = applied (i - 1) cs ++ [c].
Proof.
  intros Hi. unfold element_at, applied.
  destruct (Z.ltb_spec i 0) as [Hlt | _]; [lia |]. intros Hc.
  replace (Z.to_nat (i + 1)) with (S (Z.to_nat i)) by lia.
  replace (Z.to_nat (i - 1 + 1)) with (Z.to_nat i) by lia.
  revert Hc. generalize (Z.to_nat i) as n. clear Hi.
  induction cs as [| a cs IH]; intros [| n] Hc; try discriminate.
  - cbn in Hc. injection Hc as ->. reflexivity.
  - cbn [nth_error] in Hc. cbn [firstn app]. f_equal. now apply IH.
Qed.

Lemma element_at_map {A B : Type} (f : A -> B) (cs : list A) (i : Z) :
  element_at (map f cs) i = option_map f (element_at cs i).
Proof.
  unfold element_at. destruct (i <? 0); [reflexivity |]. apply nth_error_map.
Qed.

Lemma applied_map {A B : Type} (f : A -> B) (i : Z) (cs : list A) :
  applied i (map f cs) = map f (applied i cs).
Proof. unfold applied. apply firstn_map. Qed.

Lemma TypeCommand_execute_spec (c : TypeCommand.t) (w : World TextEditor.Heap) :
  fst (Command.execute (TypeCommand.as_Command c) w) = Normal tt
  /\ forall l,
       TextEditor.text (target (snd (Command.execute (TypeCommand.as_Command c) w)) l)
       = TextEditor.text (target w l)
         ++ (if Nat.eqb l (TypeCommand.editor c) then TypeCommand.text c else []).
Proof.
  cbn [Command.execute TypeCommand.as_Command]. unfold TypeCommand.execute.
  destruct (type_spec (TypeCommand.editor c) (TypeCommand.text c) w) as [Hn Ht].
  split; [exact Hn |]. intros l. rewrite Ht.
  destruct (Nat.eqb_spec l (TypeCommand.editor c)) as [-> | _];
    [reflexivity | now rewrite app_nil_r].
Qed.

Lemma TypeCommand_undo_spec (c : TypeCommand.t) (w : World TextEditor.Heap)
  (x : TextEditor.Heap) :
  (forall l, TextEditor.text (target w l)
             = TextEditor.text (x l)
               ++ (if Nat.eqb l (TypeCommand.editor c) then TypeCommand.text c else [])) ->
  fst (Command.undo (TypeCommand.as_Command c) w) = Normal tt
  /\ forall l,
       TextEditor.text (target (snd (Command.undo (TypeCommand.as_Command c) w)) l)
       = TextEditor.text (x l).
Proof.
  intros Hw. cbn [Command.undo TypeCommand.as_Command]. unfold TypeCommand.undo.
  pose proof (Hw (TypeCommand.editor c)) as He. rewrite Nat.eqb_refl in He.
  destruct (delete_loop_spec (TypeCommand.editor c) (TypeCommand.text c) w
              (TextEditor.text (x (TypeCommand.editor c))) He) as [Hn Ht].
  split; [exact Hn |]. intros l. rewrite Ht.
  destruct (Nat.eqb_spec l (TypeCommand.editor c)) as [-> | Hne]; [reflexivity |].
  rewrite Hw. apply Nat.eqb_neq in Hne. rewrite Hne. apply app_nil_r.
Qed.

Lemma executeCommand_consistent (h0 : TextEditor.Heap) (tcs : list TypeCommand.t)
  (c : TypeCommand.t) (s : Sys TextEditor.Heap) :
  consistent h0 tcs s ->
  consistent h0 (applied (index (this s)) tcs ++ [c])
    (snd (executeCommand (TypeCommand.as_Command c) s))
  /\ canRedo (this (snd (executeCommand (TypeCommand.as_Command c) s))) = false.
Proof.
  intros (Hc & Hr & Ht).
  destruct (TypeCommand_execute_spec c (env s)) as [Hn Hw].
  assert (Hfst : fst (executeCommand (TypeCommand.as_Command c) s) = Normal tt).
  { rewrite executeCommand_eq.
    destruct (Command.execute (TypeCommand.as_Command c) (env s)) as [[[] | e] w'];
      [reflexivity | discriminate Hn]. }
  pose proof Hr as [Hlo Hhi].
  rewrite executeCommand_normal by first [exact Hfst | lia].
  assert (Hlen : Z.of_nat (length (applied (index (this s)) tcs ++ [c]))
                 = index (this s) + 2).
  { rewrite length_app, Nat2Z.inj_add, length_applied; [cbn [length]; lia |].
    rewrite Hc, length_map in Hhi. lia. }
  assert (Hcmds : applied (index (this s)) (commands (this s))
                  ++ [TypeCommand.as_Command c]
                  = map TypeCommand.as_Command (applied (index (this s)) tcs ++ [c])).
  { now rewrite Hc, applied_map, map_app. }
  rewrite Hcmds.
  split; [split; [| split] |].
  - reflexivity.
  - unfold index_in_range. cbn [this commands index]. rewrite length_map. lia.
  - intros l. unfold text_of. cbn [env this index]. rewrite Hw.
    rewrite applied_all by lia. rewrite typed_on_snoc, app_assoc. f_equal.
    apply Ht.
  - apply canRedo_false_iff. cbn [this commands index]. rewrite length_map. lia.
Qed.

Lemma undo_consistent (h0 : TextEditor.Heap) (tcs : list TypeCommand.t)
  (s : Sys TextEditor.Heap) :
  consistent h0 tcs s ->
  consistent h0 tcs (snd (undo s))
  /\ fst (undo s) = Normal tt
  /\ index (this (snd (undo s)))
     = (if canUndo (this s) then index (this s) - 1 else index (this s)).
Proof.
  intros (Hc & Hr & Ht). pose proof Hr as [Hlo Hhi].
  rewrite undo_eq. destruct (canUndo (this s)) eqn:Hcan.
  - apply canUndo_true_iff in Hcan.
    assert (Hlen : index (this s) < Z.of_nat (length tcs))
      by (rewrite Hc, length_map in Hhi; lia).
    destruct (element_at_in_range tcs (index (this s))) as [c Hel]; [lia |].
    rewrite Hc, element_at_map, Hel. cbn [option_map].
    pose proof (applied_step _ _ _ Hcan Hel) as Hstep.
    destruct (TypeCommand_undo_spec c (env s)
                (fun l => TextEditor.mk
                   (TextEditor.text (h0 l)
                    ++ typed_on l (applied (index (this s) - 1) tcs))))
      as [Hn Hw].
    { intros l. cbn [TextEditor.text]. rewrite <- app_assoc, <- typed_on_snoc, <- Hstep.
      apply Ht. }
    destruct (Command.undo (TypeCommand.as_Command c) (env s)) as [[[] | e] w'];
      [| discriminate Hn].
    cbn [fst snd] in *. split; [| split; reflexivity].
    split; [reflexivity | split].
    + unfold index_in_range. cbn [this commands index]. rewrite length_map. lia.
    + intros l. unfold text_of. cbn [env this index]. now rewrite Hw.
  - cbn [fst snd]. split; [| split; reflexivity].
    split; [exact Hc | split; [exact Hr | exact Ht]].
Qed.

Lemma redo_consistent (h0 : TextEditor.Heap) (tcs : list TypeCommand.t)
  (s : Sys TextEditor.Heap) :
  consistent h0 tcs s ->
  consistent h0 tcs (snd (redo s))
  /\ fst (redo s) = Normal tt
  /\ index (this (snd (redo s)))
     = (if canRedo (this s) then index (this s) + 1 else index (this s)).
Proof.
  intros (Hc & Hr & Ht). pose proof Hr as [Hlo Hhi].
  rewrite redo_eq. destruct (canRedo (this s)) eqn:Hcan.
  - apply canRedo_true_iff in Hcan. cbn zeta.
    assert (Hlen : index (this s) + 1 < Z.of_nat (length tcs))
      by (rewrite Hc, length_map in Hcan; lia).
    destruct (element_at_in_range tcs (index (this s) + 1)) as [c Hel]; [lia |].
    rewrite Hc, element_at_map, Hel. cbn [option_map].
    assert (Hstep : applied (index (this s) + 1) tcs
                    = applied (index (this s)) tcs ++ [c]).
    { rewrite (applied_step (index (this s) + 1) tcs c) by (lia || exact Hel).
      now replace (index (this s) + 1 - 1) with (index (this s)) by lia. }
    destruct (TypeCommand_execute_spec c (env s)) as [Hn Hw].
    destruct (Command.execute (TypeCommand.as_Command c) (env s)) as [[[] | e] w'];
      [| discriminate Hn].
    cbn [fst snd] in *. split; [| split; reflexivity].
    split; [reflexivity | split].
    + unfold index_in_range. cbn [this commands index]. rewrite length_map. lia.
    + intros l. unfold text_of. cbn [env this index].
      rewrite Hw, Hstep, typed_on_snoc, app_assoc. f_equal. apply Ht.
  - cbn [fst snd]. split; [| split; reflexivity].
    split; [exact Hc | split; [exact Hr | exact Ht]].
Qed.

Lemma fresh_consistent (w : World TextEditor.Heap) :
  consistent (target w) [] (fresh w).
Proof.
  split; [reflexivity | split; [apply new_in_range |]].
  intros l. unfold text_of. cbn. now rewrite app_nil_r.
Qed.

Lemma perform_consistent (h0 : TextEditor.Heap) (k : call TextEditor.Heap) :
  from_TypeCommand k ->
  forall (tcs : list TypeCommand.t) (s : Sys TextEditor.Heap),
    consistent h0 tcs s ->
    exists tcs', consistent h0 tcs' (snd (perform k s)).
Proof.
  intros [c | |] tcs s Hs; cbn [perform].
  - eexists. apply (executeCommand_consistent h0 tcs c s Hs).
  - exists tcs. apply (undo_consistent h0 tcs s Hs).
  - exists tcs. apply (redo_consistent h0 tcs s Hs).
Qed.

Lemma run_consistent (h0 : TextEditor.Heap) (ks : list (call TextEditor.Heap)) :
  Forall from_TypeCommand ks ->
  forall (tcs : list TypeCommand.t) (s : Sys TextEditor.Heap),
    consistent h0 tcs s ->
    exists tcs', consistent h0 tcs' (run ks s).
Proof.
  induction 1 as [| k ks Hk _ IH]; intros tcs s Hs; cbn [run].
  - now exists tcs.
  - destruct (perform_consistent h0 k Hk tcs s Hs) as [tcs1 Hs1].
    apply (IH tcs1 _ Hs1).
Qed.

(** In a consistent state with something to undo, or with nothing to redo,
    [undo()] followed by [redo()] returns twice normally and brings back
    the manager and the text of every editor. *)
Lemma undo_then_redo_restores (h0 : TextEditor.Heap) (tcs : list TypeCommand.t)
  (s : Sys TextEditor.Heap) :
  consistent h0 tcs s ->
  canUndo (this s) = true \/ canRedo (this s) = false ->
  fst (undo s) = Normal tt
  /\ fst (redo (snd (undo s))) = Normal tt
  /\ this (snd (redo (snd (undo s)))) = this s
  /\ forall l, text_of l (snd (redo (snd (undo s)))) = text_of l s.
Proof.
  intros Hs Hcase.
  destruct (undo_consistent h0 tcs s Hs) as (Hs1 & Hn1 & Hi1).
  destruct (redo_consistent h0 tcs _ Hs1) as (Hs2 & Hn2 & Hi2).
  destruct Hs as (Hc & [Hlo Hhi] & Ht).
  destruct Hs1 as (Hc1 & _ & _). destruct Hs2 as (Hc2 & _ & Ht2).
  assert (Hidx : index (this (snd (redo (snd (undo s))))) = index (this s)).
  { rewrite Hi2, Hi1. destruct (canUndo (this s)) eqn:Hcan.
    - apply canUndo_true_iff in Hcan.
      replace (canRedo (this (snd (undo s)))) with true; [lia |].
      symmetry. apply canRedo_true_iff. rewrite Hi1, Hc1, <- Hc. lia.
    - destruct Hcase as [Hcase | Hcase]; [discriminate |].
      replace (canRedo (this (snd (undo s)))) with false; [reflexivity |].
      symmetry. apply canRedo_false_iff in Hcase. apply canRedo_false_iff.
      rewrite Hi1, Hc1, <- Hc. exact Hcase. }
  split; [exact Hn1 |]. split; [exact Hn2 |]. split.
  - destruct (this (snd (redo (snd (undo s))))) as [cs2 i2].
    destruct (this s) as [cs0 i0]. cbn [commands index] in *. congruence.
  - intros l. now rewrite Ht2, Hidx, Ht.
Qed.

Lemma executeCommand_TypeCommand_normal (c : TypeCommand.t)
  (s : Sys TextEditor.Heap) :
  fst (executeCommand (TypeCommand.as_Command c) s) = Normal tt.
Proof. rewrite executeCommand_eq. reflexivity. Qed.

Lemma executes_all_normal (cs : list TypeCommand.t) :
  forall s : Sys TextEditor.Heap, all_normal (map execute_call cs) s = true.
Proof.
  induction cs as [| c cs IH]; intros s; cbn [map all_normal]; [reflexivity |].
  unfold execute_call at 1 2. cbn [perform].
  now rewrite executeCommand_TypeCommand_normal, IH.
Qed.

Lemma executes_consistent (h0 : TextEditor.Heap) (cs : list TypeCommand.t) :
  forall (tcs : list TypeCommand.t) (s : Sys TextEditor.Heap),
    consistent h0 tcs s -> canRedo (this s) = false ->
    exists tcs', consistent h0 tcs' (run (map execute_call cs) s)
                 /\ canRedo (this (run (map execute_call cs) s)) = false.
Proof.
  induction cs as [| c cs IH]; intros tcs s Hs Hredo; cbn [map run].
  - now exists tcs.
  - unfold execute_call at 1 3. cbn [perform].
    destruct (executeCommand_consistent h0 tcs c s Hs) as [Hs1 Hredo1].
    apply (IH _ _ Hs1 Hredo1).
Qed.

(** C7. For every sequence of [TypeCommand]s executed on a new manager
    (each of them returns normally), whatever the editors held before:
    [undo()] and then [redo()] both return normally, and afterwards
    [getText()] of every editor gives, code unit for code unit, the string
    it gave just before the [undo()]; the manager is back in the same state
    too. *)
Theorem undo_redo_round_trip (cs : list TypeCommand.t) (w : World TextEditor.Heap) :
  all_normal (map execute_call cs) (fresh w) = true
  /\ fst (undo (run (map execute_call cs) (fresh w))) = Normal tt
  /\ fst (redo (snd (undo (run (map execute_call cs) (fresh w))))) = Normal tt
  /\ this (snd (redo (snd (undo (run (map execute_call cs) (fresh w))))))
     = this (run (map execute_call cs) (fresh w))
  /\ forall l : ref,
       fst (TextEditor.getText l
              (env (snd (redo (snd (undo (run (map execute_call cs) (fresh w))))))))
       = fst (TextEditor.getText l (env (run (map execute_call cs) (fresh w)))).
Proof.
  split; [apply executes_all_normal |].
  destruct (executes_consistent (target w) cs [] (fresh w) (fresh_consistent w) eq_refl)
    as (tcs & Hs & Hredo).
  destruct (undo_then_redo_restores (target w) tcs _ Hs (or_intror Hredo))
    as (Hn1 & Hn2 & Hthis & Htext).
  repeat (split; [assumption |]).
  intros l. cbn [TextEditor.getText TextEditor.read_text gets fst].
  f_equal. apply Htext.
Qed.

(** The same after any interleaving of executes of [TypeCommand]s, undos
    and redos, as long as there is something to undo. *)
Lemma undo_redo_round_trip_anywhere (ks : list (call TextEditor.Heap))
  (w : World TextEditor.Heap) :
  Forall from_TypeCommand ks ->
  canUndo (this (run ks (fresh w))) = true ->
  this (snd (redo (snd (undo (run ks (fresh w)))))) = this (run ks (fresh w))
  /\ forall l : ref,
       text_of l (snd (redo (snd (undo (run ks (fresh w))))))
       = text_of l (run ks (fresh w)).
Proof.
  intros Hks Hcan.
  destruct (run_consistent (target w) ks Hks [] (fresh w) (fresh_consistent w))
    as [tcs Hs].
  destruct (undo_then_redo_restores (target w) tcs _ Hs (or_introl Hcan))
    as (_ & _ & Hthis & Htext).
  now split.
Qed.

(** Without anything to undo the round trip is not one: [undo()] only
    prints, and [redo()] then applies an operation. *)
Lemma redo_after_idle_undo_changes_text :
  text_of Client.editor
    (run [execute_call Client.hello; CallUndo] Client.start) = lit ""
  /\ text_of Client.editor
       (run [execute_call Client.hello; CallUndo; CallUndo; CallRedo] Client.start)
     = lit "Hello".
Proof. split; reflexivity. Qed.

(** * Further properties of the receiver and the command *)

(** ** [TextEditor.delete] *)

Lemma slice_is_removelast {A : Type} (s : list A) : slice s 0 (-1) = removelast s.
Proof.
  destruct s as [| a s'] using rev_ind; [reflexivity |].
  now rewrite slice_drop_last, removelast_last.
Qed.

(** What one [delete()] does to the editors and to the console. *)
Lemma delete_effect (r : ref) (w : World TextEditor.Heap) :
  fst (TextEditor.delete r w) = Normal tt
  /\ (forall l,
        TextEditor.text (target (snd (TextEditor.delete r w)) l)
        = if Nat.eqb l r then removelast (TextEditor.text (target w r))
          else TextEditor.text (target w l))
  /\ console (snd (TextEditor.delete r w))
     = console w
       ++ [lit "Current Text after delete: "
           ++ removelast (TextEditor.text (target w r))].
Proof.
  destruct (delete_spec r w) as [Hn Ht].
  split; [exact Hn |]. split.
  - intros l. rewrite Ht, slice_is_removelast. reflexivity.
  - rewrite <- slice_is_removelast.
    unfold TextEditor.delete, TextEditor.read_text, TextEditor.write_text,
      console_log, bind, gets, modify.
    cbn [fst snd target console TextEditor.text]. unfold TextEditor.store.
    now rewrite Nat.eqb_refl.
Qed.

(** X1. [delete()] never throws: it removes the last code unit of its own
    editor, or nothing when the editor is empty, leaves every other editor
    as it is, and prints one line showing the text that is left. *)
Theorem delete_removes_last_unit (r : ref) (w : World TextEditor.Heap) :
  fst (TextEditor.delete r w) = Normal tt
  /\ (forall l,
        TextEditor.text (target (snd (TextEditor.delete r w)) l)
        = if Nat.eqb l r then removelast (TextEditor.text (target w r))
          else TextEditor.text (target w l))
  /\ (TextEditor.text (target w r) = [] ->
      TextEditor.text (target (snd (TextEditor.delete r w)) r) = [])
  /\ console (snd (TextEditor.delete r w))
     = console w
       ++ [lit "Current Text after delete: "
           ++ removelast (TextEditor.text (target w r))].
Proof.
  destruct (delete_effect r w) as (Hn & Ht & Hc).
  split; [exact Hn |]. split; [exact Ht |]. split; [| exact Hc].
  intros Hempty. now rewrite Ht, Nat.eqb_refl, Hempty.
Qed.

(** ** [TypeCommand] on its own *)

(** X2. Whatever the editors hold, [execute()] followed by [undo()] of the
    same [TypeCommand] returns twice normally and leaves the text of every
    editor as it was before the [execute()]. *)
Theorem TypeCommand_execute_then_undo (c : TypeCommand.t)
  (w : World TextEditor.Heap) :
  fst (TypeCommand.execute c w) = Normal tt
  /\ fst (TypeCommand.undo c (snd (TypeCommand.execute c w))) = Normal tt
  /\ forall l,
       TextEditor.text
         (target (snd (TypeCommand.undo c (snd (TypeCommand.execute c w)))) l)
       = TextEditor.text (target w l).
Proof.
  destruct (TypeCommand_execute_spec c w) as [Hn Hw].
  cbn [Command.execute TypeCommand.as_Command] in Hn, Hw.
  destruct (TypeCommand_undo_spec c (snd (TypeCommand.execute c w)) (target w) Hw)
    as [Hn' Hw'].
  cbn [Command.undo TypeCommand.as_Command] in Hn', Hw'.
  split; [exact Hn |]. split; [exact Hn' | exact Hw'].
Qed.

Lemma removelast_as_firstn {A : Type} (s : list A) :
  removelast s = firstn (length s - 1) s.
Proof.
  destruct s as [| a s'] using rev_ind; [reflexivity |].
  rewrite removelast_last, length_app. cbn [length].
  replace (length s' + 1 - 1)%nat with (length s') by lia.
  now rewrite firstn_app, Nat.sub_diag, firstn_all, app_nil_r.
Qed.

(** [n] deletes cut [n] code units off the end, as far as there are any,
    and print [n] lines. *)
Lemma delete_loop_cuts (r : ref) (n : nat) :
  forall w : World TextEditor.Heap,
    fst (for_loop n (TextEditor.delete r) w) = Normal tt
    /\ (forall l,
          TextEditor.text (target (snd (for_loop n (TextEditor.delete r) w)) l)
          = if Nat.eqb l r
            then firstn (length (TextEditor.text (target w r)) - n)
                        (TextEditor.text (target w r))
            else TextEditor.text (target w l))
    /\ length (console (snd (for_loop n (TextEditor.delete r) w)))
       = (length (console w) + n)%nat.
Proof.
  induction n as [| n IH]; intros w.
  - cbn. split; [reflexivity |]. split; [| lia]. intros l.
    rewrite Nat.sub_0_r, firstn_all. destruct (Nat.eqb_spec l r) as [-> | _];
      reflexivity.
  - rewrite for_loop_succ.
    destruct (delete_effect r w) as (Hn & Ht & Hc).
    destruct (TextEditor.delete r w) as [res w1]. cbn [fst snd] in Hn, Ht, Hc.
    subst res. destruct (IH w1) as (Hn1 & Ht1 & Hc1).
    split; [exact Hn1 |]. split.
    + intros l. rewrite Ht1.
      destruct (Nat.eqb_spec l r) as [_ | Hne].
      * rewrite Ht, Nat.eqb_refl, removelast_as_firstn, firstn_firstn, length_firstn.
        f_equal. lia.
      * rewrite Ht. now apply Nat.eqb_neq in Hne as ->.
    + rewrite Hc1, Hc, length_app. cbn [length]. lia.
Qed.

(** X3. [undo()] of a [TypeCommand] deletes by count, not by content:
    whatever its editor holds, it never throws, cuts as many code units off
    the end of that editor's text as the command's text has (all of them
    when the text is shorter), leaves every other editor alone, and prints
    one line per code unit of the command's text. *)
Theorem TypeCommand_undo_cuts_by_length (c : TypeCommand.t)
  (w : World TextEditor.Heap) :
  fst (TypeCommand.undo c w) = Normal tt
  /\ (forall l,
        TextEditor.text (target (snd (TypeCommand.undo c w)) l)
        = if Nat.eqb l (TypeCommand.editor c)
          then firstn (length (TextEditor.text (target w (TypeCommand.editor c)))
                       - length (TypeCommand.text c))
                      (TextEditor.text (target w (TypeCommand.editor c)))
          else TextEditor.text (target w l))
  /\ length (console (snd (TypeCommand.undo c w)))
     = (length (console w) + length (TypeCommand.text c))%nat.
Proof.
  unfold TypeCommand.undo. apply delete_loop_cuts.
Qed.

(** ** A manager driven with [TypeCommand]s *)

Lemma run_app {T : Type} (ks1 ks2 : list (call T)) :
  forall s : Sys T, run (ks1 ++ ks2) s = run ks2 (run ks1 s).
Proof.
  induction ks1 as [| k ks1 IH]; intros s; cbn [app run]; [reflexivity |].
  apply IH.
Qed.

Lemma perform_consistent_normal (h0 : TextEditor.Heap) (k : call TextEditor.Heap) :
  from_TypeCommand k ->
  forall (tcs : list TypeCommand.t) (s : Sys TextEditor.Heap),
    consistent h0 tcs s -> fst (perform k s) = Normal tt.
Proof.
  intros [c | |] tcs s Hs; cbn [perform].
  - apply executeCommand_TypeCommand_normal.
  - apply (undo_consistent h0 tcs s Hs).
  - apply (redo_consistent h0 tcs s Hs).
Qed.

Lemma all_normal_consistent (h0 : TextEditor.Heap) (ks : list (call TextEditor.Heap)) :
  Forall from_TypeCommand ks ->
  forall (tcs : list TypeCommand.t) (s : Sys TextEditor.Heap),
    consistent h0 tcs s -> all_normal ks s = true.
Proof.
  induction 1 as [| k ks Hk _ IH]; intros tcs s Hs; cbn [all_normal];
    [reflexivity |].
  rewrite (perform_consistent_normal h0 k Hk tcs s Hs). cbn [is_normal andb].
  destruct (perform_consistent h0 k Hk tcs s Hs) as [tcs1 Hs1].
  apply (IH tcs1 _ Hs1).
Qed.

Lemma script_from_TypeCommand : Forall from_TypeCommand Client.script.
Proof.
  repeat constructor.
Qed.

(** X4. A new manager that is only ever given [TypeCommand]s never throws:
    every [executeCommand], [undo] and [redo] call of any such sequence
    returns normally, whatever the editors held at the start. *)
Theorem TypeCommand_calls_never_throw (ks : list (call TextEditor.Heap))
  (w : World TextEditor.Heap) :
  Forall from_TypeCommand ks -> all_normal ks (fresh w) = true.
Proof.
  intros Hks.
  apply (all_normal_consistent (target w) ks Hks [] (fresh w) (fresh_consistent w)).
Qed.

Lemma TypeCommand_calls_never_throw_witness :
  Forall from_TypeCommand (Client.script ++ [CallRedo; CallUndo; CallUndo; CallUndo])
  /\ all_normal (Client.script ++ [CallRedo; CallUndo; CallUndo; CallUndo])
       Client.start = true.
Proof.
  assert (H : Forall from_TypeCommand
                (Client.script ++ [CallRedo; CallUndo; CallUndo; CallUndo])).
  { apply Forall_app. split; [exact script_from_TypeCommand |].
    repeat constructor. }
  split; [exact H |].
  exact (TypeCommand_calls_never_throw _ (env Client.start) H).
Defined.

(** X5. After any sequence of [executeCommand], [undo] and [redo] calls on
    a new manager that is only given [TypeCommand]s, the record is a list
    of those commands and every editor holds the text it held at the start
    followed by what the entries up to the cursor type into it, in order:
    entries after the cursor have no part in the text. *)
Theorem text_is_what_applied_entries_typed (ks : list (call TextEditor.Heap))
  (w : World TextEditor.Heap) :
  Forall from_TypeCommand ks ->
  exists tcs : list TypeCommand.t,
    commands (this (run ks (fresh w))) = map TypeCommand.as_Command tcs
    /\ forall l,
         text_of l (run ks (fresh w))
         = TextEditor.text (target w l)
           ++ typed_on l (applied (index (this (run ks (fresh w)))) tcs).
Proof.
  intros Hks.
  destruct (run_consistent (target w) ks Hks [] (fresh w) (fresh_consistent w))
    as (tcs & Hc & _ & Ht).
  exists tcs. split; [exact Hc | exact Ht].
Qed.

Lemma text_is_what_applied_entries_typed_witness :
  Forall from_TypeCommand Client.script
  /\ exists tcs : list TypeCommand.t,
       commands (this (run Client.script Client.start))
       = map TypeCommand.as_Command tcs
       /\ forall l,
            text_of l (run Client.script Client.start)
            = TextEditor.text (target (env Client.start) l)
              ++ typed_on l
                   (applied (index (this (run Client.script Client.start))) tcs).
Proof.
  split; [exact script_from_TypeCommand |].
  exact (text_is_what_applied_entries_typed Client.script (env Client.start)
           script_from_TypeCommand).
Defined.

Lemma executes_exact (h0 : TextEditor.Heap) (cs : list TypeCommand.t) :
  forall (tcs : list TypeCommand.t) (s : Sys TextEditor.Heap),
    consistent h0 tcs s ->
    index (this s) = Z.of_nat (length tcs) - 1 ->
    consistent h0 (tcs ++ cs) (run (map execute_call cs) s)
    /\ index (this (run (map execute_call cs) s))
       = Z.of_nat (length (tcs ++ cs)) - 1.
Proof.
  induction cs as [| c cs IH]; intros tcs s Hs Hi; cbn [map run].
  - now rewrite app_nil_r.
  - unfold execute_call at 1 3. cbn [perform].
    destruct (executeCommand_consistent h0 tcs c s Hs) as [Hs1 Hredo1].
    rewrite applied_all in Hs1 by lia.
    assert (Hi1 : index (this (snd (executeCommand (TypeCommand.as_Command c) s)))
                  = Z.of_nat (length (tcs ++ [c])) - 1).
    { destruct Hs1 as (Hc1 & [_ Hhi1] & _). apply canRedo_false_iff in Hredo1.
      rewrite Hc1, length_map in Hhi1, Hredo1. lia. }
    destruct (IH _ _ Hs1 Hi1) as [Hs2 Hi2].
    rewrite <- app_assoc in Hs2, Hi2. now split.
Qed.

Lemma undos_consistent (h0 : TextEditor.Heap) (tcs : list TypeCommand.t) (n : nat) :
  forall s : Sys TextEditor.Heap,
    consistent h0 tcs s ->
    consistent h0 tcs (run (repeat CallUndo n) s)
    /\ index (this (run (repeat CallUndo n) s))
       = Z.max (-1) (index (this s) - Z.of_nat n).
Proof.
  induction n as [| n IH]; intros s Hs; cbn [repeat run perform].
  - split; [exact Hs |]. destruct Hs as (_ & [Hlo _] & _). lia.
  - destruct (undo_consistent h0 tcs s Hs) as (Hs1 & _ & Hi1).
    destruct (IH _ Hs1) as [Hs2 Hi2]. split; [exact Hs2 |].
    rewrite Hi2, Hi1. destruct Hs as (_ & [Hlo _] & _).
    destruct (canUndo (this s)) eqn:Hcan.
    + apply canUndo_true_iff in Hcan. lia.
    + apply canUndo_false_iff in Hcan. lia.
Qed.

Lemma redos_consistent (h0 : TextEditor.Heap) (tcs : list TypeCommand.t) (n : nat) :
  forall s : Sys TextEditor.Heap,
    consistent h0 tcs s ->
    consistent h0 tcs (run (repeat CallRedo n) s)
    /\ index (this (run (repeat CallRedo n) s))
       = Z.min (Z.of_nat (length tcs) - 1) (index (this s) + Z.of_nat n).
Proof.
  induction n as [| n IH]; intros s Hs; cbn [repeat run perform].
  - split; [exact Hs |]. destruct Hs as (Hc & [_ Hhi] & _).
    rewrite Hc, length_map in Hhi. lia.
  - destruct (redo_consistent h0 tcs s Hs) as (Hs1 & _ & Hi1).
    destruct (IH _ Hs1) as [Hs2 Hi2]. split; [exact Hs2 |].
    rewrite Hi2, Hi1. destruct Hs as (Hc & [_ Hhi] & _).
    rewrite Hc, length_map in Hhi.
    destruct (canRedo (this s)) eqn:Hcan.
    + apply canRedo_true_iff in Hcan. rewrite Hc, length_map in Hcan. lia.
    + apply canRedo_false_iff in Hcan. rewrite Hc, length_map in Hcan. lia.
Qed.

(** X6. Execute any [TypeCommand]s [cs] on a new manager, then call
    [undo()] [k] times and [redo()] [j] times: every editor holds the text
    it held at the start followed by what the first [min (n - k + j) n] of
    the commands type into it ([n] their number, [n - k] not below zero),
    the cursor is on the last of these, and the record is still [cs]. So
    [n] undos give back the initial text, and as many redos after them the
    text after the executes. *)
Theorem undos_then_redos_replay_a_prefix (cs : list TypeCommand.t) (k j : nat)
  (w : World TextEditor.Heap) :
  commands (this (run (map execute_call cs ++ repeat CallUndo k ++ repeat CallRedo j)
                      (fresh w)))
  = map TypeCommand.as_Command cs
  /\ index (this (run (map execute_call cs ++ repeat CallUndo k ++ repeat CallRedo j)
                      (fresh w)))
     = Z.of_nat (Nat.min (length cs - k + j) (length cs)) - 1
  /\ forall l,
       text_of l (run (map execute_call cs ++ repeat CallUndo k ++ repeat CallRedo j)
                      (fresh w))
       = TextEditor.text (target w l)
         ++ typed_on l (firstn (Nat.min (length cs - k + j) (length cs)) cs).
Proof.
  rewrite !run_app.
  destruct (executes_exact (target w) cs [] (fresh w) (fresh_consistent w) eq_refl)
    as [Hs0 Hi0].
  cbn [app] in Hs0, Hi0.
  destruct (undos_consistent (target w) cs k _ Hs0) as [Hs1 Hi1].
  destruct (redos_consistent (target w) cs j _ Hs1) as [Hs2 Hi2].
  rewrite Hi1, Hi0 in Hi2.
  destruct Hs2 as (Hc2 & _ & Ht2).
  assert (Hidx : index (this (run (repeat CallRedo j)
                   (run (repeat CallUndo k) (run (map execute_call cs) (fresh w)))))
                 = Z.of_nat (Nat.min (length cs - k + j) (length cs)) - 1)
    by (rewrite Hi2; lia).
  split; [exact Hc2 |]. split; [exact Hidx |].
  intros l. rewrite Ht2, Hidx. unfold applied. do 3 f_equal. lia.
Qed.

(** X7. Execute any [TypeCommand]s [cs] on a new manager, call [undo()]
    [k] times, execute one more command [d], then call [redo()] [j] times:
    the record is the first [n - k] of [cs] followed by [d] (the undone
    entries are gone for good), the cursor is on [d], the redos change
    nothing, and every editor holds its initial text followed by what
    exactly those entries type into it. *)
Theorem execute_after_undos_discards_undone (cs : list TypeCommand.t) (k j : nat)
  (d : TypeCommand.t) (w : World TextEditor.Heap) :
  commands (this (run (map execute_call cs ++ repeat CallUndo k
                       ++ [execute_call d] ++ repeat CallRedo j) (fresh w)))
  = map TypeCommand.as_Command (firstn (length cs - k) cs ++ [d])
  /\ index (this (run (map execute_call cs ++ repeat CallUndo k
                       ++ [execute_call d] ++ repeat CallRedo j) (fresh w)))
     = Z.of_nat (length (firstn (length cs - k) cs ++ [d])) - 1
  /\ forall l,
       text_of l (run (map execute_call cs ++ repeat CallUndo k
                       ++ [execute_call d] ++ repeat CallRedo j) (fresh w))
       = TextEditor.text (target w l)
         ++ typed_on l (firstn (length cs - k) cs ++ [d]).
Proof.
  rewrite !run_app.
  destruct (executes_exact (target w) cs [] (fresh w) (fresh_consistent w) eq_refl)
    as [Hs0 Hi0].
  cbn [app] in Hs0, Hi0.
  destruct (undos_consistent (target w) cs k _ Hs0) as [Hs1 Hi1].
  rewrite Hi0 in Hi1.
  set (s1 := run (repeat CallUndo k) (run (map execute_call cs) (fresh w))) in *.
  assert (Happ : applied (index (this s1)) cs = firstn (length cs - k) cs).
  { unfold applied. rewrite Hi1. f_equal. lia. }
  destruct (executeCommand_consistent (target w) cs d s1 Hs1) as [Hs2 Hredo2].
  rewrite Happ in Hs2.
  change (snd (executeCommand (TypeCommand.as_Command d) s1))
    with (run [execute_call d] s1) in Hs2, Hredo2.
  assert (Hi2 : index (this (run [execute_call d] s1))
                = Z.of_nat (length (firstn (length cs - k) cs ++ [d])) - 1).
  { destruct Hs2 as (Hc2 & [_ Hhi2] & _). apply canRedo_false_iff in Hredo2.
    rewrite Hc2, length_map in Hhi2, Hredo2. lia. }
  destruct (redos_consistent (target w) _ j _ Hs2) as [Hs3 Hi3].
  rewrite Hi2 in Hi3.
  destruct Hs3 as (Hc3 & _ & Ht3).
  assert (Hidx : index (this (run (repeat CallRedo j) (run [execute_call d] s1)))
                 = Z.of_nat (length (firstn (length cs - k) cs ++ [d])) - 1)
    by (rewrite Hi3; lia).
  split; [exact Hc3 |]. split; [exact Hidx |].
  intros l. rewrite Ht3, Hidx. now rewrite applied_all by lia.
Qed.

(** * Further properties of the manager, for any commands *)

Lemma element_at_some_bounds {A : Type} (cs : list A) (i : Z) (c : A) :
  element_at cs i = Some c -> 0 <= i < Z.of_nat (length cs).
Proof.
  unfold element_at. destruct (Z.ltb_spec i 0) as [Hlt | Hge]; [discriminate |].
  intros Hc. assert (Hn : nth_error cs (Z.to_nat i) <> None) by congruence.
  apply nth_error_Some in Hn. lia.
Qed.

Lemma this_eta {T : Type} (m : t T) : mk (commands m) (index m) = m.
Proof. now destruct m. Qed.

(** X8. With the cursor in range the manager throws nothing of its own:
    an exception that leaves [executeCommand], [undo] or [redo] is the one
    thrown by the method of the command it called (the new command, the
    entry at the cursor, the entry after the cursor), and that entry
    exists. *)
Theorem manager_throws_only_what_commands_throw {T : Type} (s : Sys T) :
  index_in_range (this s) ->
  (forall op e, fst (executeCommand op s) = Abrupt e ->
                fst (Command.execute op (env s)) = Abrupt e)
  /\ (forall e, fst (undo s) = Abrupt e ->
                exists c, element_at (commands (this s)) (index (this s)) = Some c
                          /\ fst (Command.undo c (env s)) = Abrupt e)
  /\ (forall e, fst (redo s) = Abrupt e ->
                exists c, element_at (commands (this s)) (index (this s) + 1) = Some c
                          /\ fst (Command.execute c (env s)) = Abrupt e).
Proof.
  intros [Hlo Hhi]. split; [| split].
  - intros op e. rewrite executeCommand_eq.
    destruct (Command.execute op (env s)) as [[[] | e'] w']; [discriminate |].
    exact (fun H => H).
  - intros e. rewrite undo_eq.
    destruct (canUndo (this s)) eqn:Hcan; [| discriminate].
    apply canUndo_true_iff in Hcan.
    destruct (element_at_in_range (commands (this s)) (index (this s)))
      as [c Hc]; [lia |].
    rewrite Hc. intros He. exists c. split; [reflexivity |].
    destruct (Command.undo c (env s)) as [[[] | e'] w']; [discriminate | exact He].
  - intros e. rewrite redo_eq.
    destruct (canRedo (this s)) eqn:Hcan; [| discriminate].
    apply canRedo_true_iff in Hcan. cbn zeta.
    destruct (element_at_in_range (commands (this s)) (index (this s) + 1))
      as [c Hc]; [lia |].
    rewrite Hc. intros He. exists c. split; [reflexivity |].
    destruct (Command.execute c (env s)) as [r w']. exact He.
Qed.

Lemma manager_throws_only_what_commands_throw_witness :
  index_in_range (this (run [CallExecute Fixture.once; CallUndo] (fresh (mkWorld 0%nat []))))
  /\ fst (redo (run [CallExecute Fixture.once; CallUndo] (fresh (mkWorld 0%nat []))))
     = Abrupt (Thrown (lit "again"))
  /\ exists c,
       element_at
         (commands (this (run [CallExecute Fixture.once; CallUndo]
                              (fresh (mkWorld 0%nat [])))))
         (index (this (run [CallExecute Fixture.once; CallUndo]
                           (fresh (mkWorld 0%nat [])))) + 1) = Some c
       /\ fst (Command.execute c
                 (env (run [CallExecute Fixture.once; CallUndo]
                           (fresh (mkWorld 0%nat [])))))
          = Abrupt (Thrown (lit "again")).
Proof.
  assert (Hr : index_in_range
                 (this (run [CallExecute Fixture.once; CallUndo]
                            (fresh (mkWorld 0%nat [])))))
    by (unfold index_in_range; vm_compute; split; discriminate).
  split; [exact Hr |]. split; [reflexivity |].
  exact (proj2 (proj2 (manager_throws_only_what_commands_throw _ Hr))
           (Thrown (lit "again")) eq_refl).
Defined.

(** Outside the range, which no caller reaches, the array read gives
    [undefined] and the call on it throws. *)
Lemma undo_past_the_record_throws_TypeError :
  fst (undo (mkSys (mk (@nil (Command.t nat)) 0) (mkWorld 0%nat []))) = Abrupt TypeError.
Proof. reflexivity. Qed.

(** X9. When [undo()] finds the entry [c] at the cursor and [c.undo()]
    returns, a [redo()] right after it calls [execute] on that same [c], in
    the world [c.undo()] left, and puts the manager back exactly as it was
    before the [undo()]; the [redo()] returns or throws as that [execute]
    does. *)
Theorem redo_after_undo_reruns_undone_entry {T : Type}
  (s : Sys T) (c : Command.t T) (w1 : World T) :
  element_at (commands (this s)) (index (this s)) = Some c ->
  Command.undo c (env s) = (Normal tt, w1) ->
  undo s = (Normal tt, mkSys (mk (commands (this s)) (index (this s) - 1)) w1)
  /\ redo (snd (undo s))
     = (fst (Command.execute c w1), mkSys (this s) (snd (Command.execute c w1))).
Proof.
  intros Hc Hundo. pose proof (element_at_some_bounds _ _ _ Hc) as [Hlo Hhi].
  assert (Hu : undo s
               = (Normal tt, mkSys (mk (commands (this s)) (index (this s) - 1)) w1)).
  { rewrite undo_eq.
    replace (canUndo (this s)) with true by (symmetry; now apply canUndo_true_iff).
    now rewrite Hc, Hundo. }
  split; [exact Hu |]. rewrite Hu. cbn [snd]. rewrite redo_eq.
  cbn [this env commands index].
  replace (canRedo (mk (commands (this s)) (index (this s) - 1))) with true
    by (symmetry; apply canRedo_true_iff; cbn [commands index]; lia).
  cbn zeta. replace (index (this s) - 1 + 1) with (index (this s)) by lia.
  rewrite Hc, this_eta. now destruct (Command.execute c w1).
Qed.

Lemma redo_after_undo_reruns_undone_entry_witness :
  element_at (commands (this Fixture.mid)) (index (this Fixture.mid))
  = Some (TypeCommand.as_Command Fixture.B)
  /\ Command.undo (TypeCommand.as_Command Fixture.B) (env Fixture.mid)
     = (Normal tt, snd (TypeCommand.undo Fixture.B (env Fixture.mid)))
  /\ this (snd (redo (snd (undo Fixture.mid)))) = this Fixture.mid.
Proof.
  split; [reflexivity |]. split; [reflexivity |].
  destruct (redo_after_undo_reruns_undone_entry Fixture.mid
              (TypeCommand.as_Command Fixture.B)
              (snd (TypeCommand.undo Fixture.B (env Fixture.mid)))
              eq_refl eq_refl) as [_ Hredo].
  now rewrite Hredo.
Defined.

(** X10. When [redo()] finds the entry [c] after the cursor, it returns or
    throws as [c.execute()] does, and in both cases an [undo()] right after
    it calls [undo] on that same [c]: also after a [redo()] that threw,
    where the cursor has stayed on [c]. If that [c.undo()] returns, the
    manager is back exactly as it was before the [redo()]; if it throws,
    the cursor stays on [c]. *)
Theorem undo_after_redo_reverts_redone_entry {T : Type}
  (s : Sys T) (c : Command.t T) (r : completion unit) (w1 : World T) :
  element_at (commands (this s)) (index (this s) + 1) = Some c ->
  Command.execute c (env s) = (r, w1) ->
  redo s = (r, mkSys (mk (commands (this s)) (index (this s) + 1)) w1)
  /\ undo (snd (redo s))
     = match Command.undo c w1 with
       | (Normal _, w2) => (Normal tt, mkSys (this s) w2)
       | (Abrupt e, w2) =>
           (Abrupt e, mkSys (mk (commands (this s)) (index (this s) + 1)) w2)
       end.
Proof.
  intros Hc Hexec. pose proof (element_at_some_bounds _ _ _ Hc) as [Hlo Hhi].
  assert (Hr : redo s
               = (r, mkSys (mk (commands (this s)) (index (this s) + 1)) w1)).
  { rewrite redo_eq.
    replace (canRedo (this s)) with true by (symmetry; now apply canRedo_true_iff).
    cbn zeta. now rewrite Hc, Hexec. }
  split; [exact Hr |]. rewrite Hr. cbn [snd]. rewrite undo_eq.
  cbn [this env commands index].
  replace (canUndo (mk (commands (this s)) (index (this s) + 1))) with true
    by (symmetry; apply canUndo_true_iff; cbn [index]; lia).
  rewrite Hc. replace (index (this s) + 1 - 1) with (index (this s)) by lia.
  rewrite this_eta. reflexivity.
Qed.

Lemma undo_after_redo_reverts_redone_entry_witness :
  element_at
    (commands (this (run [CallExecute Fixture.once; CallUndo] (fresh (mkWorld 0%nat [])))))
    (index (this (run [CallExecute Fixture.once; CallUndo] (fresh (mkWorld 0%nat [])))) + 1)
  = Some Fixture.once
  /\ Command.execute Fixture.once
       (env (run [CallExecute Fixture.once; CallUndo] (fresh (mkWorld 0%nat []))))
     = (Abrupt (Thrown (lit "again")), mkWorld 1%nat [])
  /\ fst (redo (run [CallExecute Fixture.once; CallUndo] (fresh (mkWorld 0%nat []))))
     = Abrupt (Thrown (lit "again"))
  /\ fst (undo (snd (redo (run [CallExecute Fixture.once; CallUndo]
                               (fresh (mkWorld 0%nat []))))))
     = Normal tt.
Proof.
  split; [reflexivity |]. split; [reflexivity |].
  destruct (undo_after_redo_reverts_redone_entry
              (run [CallExecute Fixture.once; CallUndo] (fresh (mkWorld 0%nat [])))
              Fixture.once (Abrupt (Thrown (lit "again"))) (mkWorld 1%nat [])
              eq_refl eq_refl) as [Hredo Hundo].
  split; [now rewrite Hredo | now rewrite Hundo].
Defined.
